(** * Seat locking and confirmation: a model of [server.js]

    The server keeps twenty seat objects in a JavaScript [Map], mutates them
    in place from four HTTP handlers, one [setTimeout] callback per lock and
    one [setInterval] sweep.  Node runs every handler and every callback to
    completion on a single thread, so each of them is modelled as one
    atomic transformation of the server's state.

    - Seat ids and timestamps are JavaScript numbers holding integers: [Z].
    - Claimant identities are the strings of the request body ([userId]);
      the empty string is the falsy one that [!userId] rejects.
    - [null] fields are [None].
    - [Date.now()] is an oracle: the [n]-th call of the process returns
      [clock n].  A handler that reads the clock several times may see
      several values.
    - A [Timeout] object returned by [setTimeout] is a handle (a [nat]);
      the pending timers are a finite map from handles to what they will
      run. *)

From Stdlib Require Import ZArith String List.
From stdpp Require Import gmap strings list fin_maps.

Open Scope Z_scope.

(** ** Data model *)

Inductive Status : Type := available | locked | booked.

#[global] Instance Status_eq_dec : EqDecision Status.
Proof. solve_decision. Defined.

(** One seat object, lines 21-27 of the source. *)
Record Seat : Type := mkSeat {
  id : Z;
  status : Status;
  lockOwner : option string;
  lockExpiresAt : option Z;
  timeoutId : option nat
}.

(** A pending [setTimeout]: the seat object its closure captured (named by
    its key in the registry) and the delay that was asked for. *)
Record Timer : Type := mkTimer {
  t_seat : Z;
  t_delay : Z
}.

(** What the runtime holds besides the seats: the pending timers, the next
    fresh handle and the number of [Date.now()] calls made so far. *)
Record Runtime : Type := mkRuntime {
  timers : gmap nat Timer;
  nextTimer : nat;
  ticks : nat
}.

Record World : Type := mkWorld {
  seats : gmap Z Seat;
  rt : Runtime
}.

(** The [seat: {...}] object of a success payload. *)
Record SeatView : Type := mkView {
  v_id : Z;
  v_status : Status;
  v_lockExpiresAt : option Z
}.

(** One constructor per [res.json] call of the source.  The comments give
    the HTTP status and the message the source sends. *)
Inductive Response : Type :=
  | BadRequest                                   (* 400 'seatId (number) and userId are required' *)
  | NotFound                                     (* 404 'Seat not found' *)
  | AlreadyBooked                                (* 409 'Seat already booked' *)
  | LockRefreshed (v : SeatView)                 (* 200 'Lock refreshed' *)
  | LockConflict (holder : option string)        (* 409 'Seat is currently locked by another user (holder)' *)
  | LockAcquired (seatId : Z) (userId : string) (v : SeatView)
                                                 (* 200 'Seat .. locked for user .. for 60 seconds' *)
  | NotLocked                                    (* 409 'Seat is not locked. Cannot confirm without a lock.' *)
  | NotLockOwner (holder : option string)        (* 403 'You do not own the lock. Locked by holder' *)
  | LockExpired                                  (* 409 'Lock has expired. Cannot confirm.' *)
  | BookingConfirmed (seatId : Z) (userId : string) (sid : Z) (st : Status)
                                                 (* 200 'Seat .. successfully booked by ..' *)
  | ReleaseNotLocked                             (* 409 'Seat is not locked' *)
  | ReleaseNotOwner                              (* 403 'Only lock owner can release the lock' *)
  | LockReleased (seatId : Z).                   (* 200 'Lock released for seat ..' *)

Definition httpStatus (r : Response) : Z :=
  match r with
  | BadRequest => 400
  | NotFound => 404
  | AlreadyBooked | LockConflict _ | NotLocked | LockExpired | ReleaseNotLocked => 409
  | NotLockOwner _ | ReleaseNotOwner => 403
  | LockRefreshed _ | LockAcquired _ _ _ | BookingConfirmed _ _ _ _ | LockReleased _ => 200
  end.

Definition success (r : Response) : bool :=
  match r with
  | LockRefreshed _ | LockAcquired _ _ _ | BookingConfirmed _ _ _ _ | LockReleased _ => true
  | _ => false
  end.

(** ** Configuration *)

Definition LOCK_DURATION_MS : Z := 60 * 1000.
Definition CLEANUP_INTERVAL_MS : Z := 5 * 1000.

(** ** The monad of code that works on one seat object

    Every function of the source receives one seat object and mutates its
    fields; besides that it only reads the clock and sets or clears timers.
    [SM] threads the seat and the runtime. *)

Definition SM (A : Type) : Type := Seat * Runtime -> A * (Seat * Runtime).

Definition ret {A} (a : A) : SM A := fun st => (a, st).

Definition bind {A B} (c : SM A) (k : A -> SM B) : SM B :=
  fun st => let (a, st') := c st in k a st'.

Notation "x <- c1 ;; c2" := (bind c1 (fun x => c2))
  (at level 100, c1 at next level, right associativity).
Notation "c1 ;; c2" := (bind c1 (fun _ => c2))
  (at level 100, right associativity).

(** Reading a field of the seat. *)
Definition gets {A} (f : Seat -> A) : SM A := fun st => (f (fst st), st).

(** Assigning a field of the seat. *)
Definition set_status (v : Status) : SM unit :=
  fun '(s, r) => (tt, (mkSeat (id s) v (lockOwner s) (lockExpiresAt s) (timeoutId s), r)).
Definition set_lockOwner (v : option string) : SM unit :=
  fun '(s, r) => (tt, (mkSeat (id s) (status s) v (lockExpiresAt s) (timeoutId s), r)).
Definition set_lockExpiresAt (v : option Z) : SM unit :=
  fun '(s, r) => (tt, (mkSeat (id s) (status s) (lockOwner s) v (timeoutId s), r)).
Definition set_timeoutId (v : option nat) : SM unit :=
  fun '(s, r) => (tt, (mkSeat (id s) (status s) (lockOwner s) (lockExpiresAt s) v, r)).

(** [clearTimeout(h)]: the timer is no longer pending; nothing happens when
    it already ran or was cleared. *)
Definition clearTimeout (h : nat) : SM unit :=
  fun '(s, r) => (tt, (s, mkRuntime (delete h (timers r)) (nextTimer r) (ticks r))).

(** [setTimeout(cb, delay)] where [cb] closes over the seat object [ref]. *)
Definition setTimeout (ref : Z) (delay : Z) : SM nat :=
  fun '(s, r) =>
    (nextTimer r,
     (s, mkRuntime (<[nextTimer r := mkTimer ref delay]> (timers r))
                   (S (nextTimer r)) (ticks r))).

(** JavaScript truthiness of a number-or-null field: [null] and [0] are
    falsy. *)
Definition truthy (e : option Z) : bool :=
  match e with
  | Some t => negb (t =? 0)
  | None => false
  end.

(** [null] in arithmetic is [0]. *)
Definition toNumber (e : option Z) : Z :=
  match e with
  | Some t => t
  | None => 0
  end.

(** Lines 19-28: seats 1..20, all available. *)
Definition initialSeats : gmap Z Seat :=
  list_to_map (map (fun i => (i, mkSeat i available None None None)) (seqZ 1 20)).

Definition initialWorld : World :=
  mkWorld initialSeats (mkRuntime ∅ 0 0).

Section Server.

(** The value of the [n]-th call of [Date.now()]. *)
Variable clock : nat -> Z.

Definition Date_now : SM Z :=
  fun '(s, r) => (clock (ticks r), (s, mkRuntime (timers r) (nextTimer r) (S (ticks r)))).

(** [seat.lockExpiresAt && Date.now() >= seat.lockExpiresAt] as a condition;
    [&&] reads the clock only when the field is truthy. *)
Definition lockHasExpired : SM bool :=
  e <- gets lockExpiresAt ;;
  if truthy e then
    now <- Date_now ;;
    ret (toNumber e <=? now)
  else ret false.

(** Lines 31-40.  The source's [if (!seat) return] guards a null reference;
    the function is only ever reached with a seat object. *)
Definition releaseLock : SM unit :=
  h <- gets timeoutId ;;
  match h with
  | Some h =>
      clearTimeout h ;;
      set_timeoutId None
  | None => ret tt
  end ;;
  set_status available ;;
  set_lockOwner None ;;
  set_lockExpiresAt None.

(** Lines 43-53; [ref] names the seat object for the closure. *)
Definition scheduleAutoRelease (ref : Z) : SM unit :=
  h <- gets timeoutId ;;
  match h with
  | Some h => clearTimeout h
  | None => ret tt
  end ;;
  e <- gets lockExpiresAt ;;
  now <- Date_now ;;
  let ms := Z.max 0 (toNumber e - now) in
  h' <- setTimeout ref (ms + 5) ;;
  set_timeoutId (Some h').

(** Lines 47-51: the body of the closure given to [setTimeout]. *)
Definition autoReleaseCallback : SM unit :=
  st <- gets status ;;
  if decide (st = locked) then
    expired <- lockHasExpired ;;
    if expired then releaseLock else ret tt
  else ret tt.

(** Lines 59-62: the body of the sweep's loop, [now] read before the loop. *)
Definition cleanupSeat (now : Z) : SM unit :=
  st <- gets status ;;
  e <- gets lockExpiresAt ;;
  if bool_decide (st = locked) && truthy e && (toNumber e <=? now)
  then releaseLock
  else ret tt.

Definition view : SM SeatView :=
  i <- gets id ;;
  st <- gets status ;;
  e <- gets lockExpiresAt ;;
  ret (mkView i st e).

(** Lines 87-115: [/lock] once the seat object is found. *)
Definition lockSeat (seatId : Z) (userId : string) : SM Response :=
  st <- gets status ;;
  if decide (st = booked) then ret AlreadyBooked
  else
    early <-
      (if decide (st = locked) then
         expired <- lockHasExpired ;;
         if expired then
           releaseLock ;;
           ret None
         else
           o <- gets lockOwner ;;
           if decide (o = Some userId) then
             now <- Date_now ;;
             set_lockExpiresAt (Some (now + LOCK_DURATION_MS)) ;;
             scheduleAutoRelease seatId ;;
             v <- view ;;
             ret (Some (LockRefreshed v))
           else ret (Some (LockConflict o))
       else ret None) ;;
    match early with
    | Some r => ret r
    | None =>
        set_status locked ;;
        set_lockOwner (Some userId) ;;
        now <- Date_now ;;
        set_lockExpiresAt (Some (now + LOCK_DURATION_MS)) ;;
        scheduleAutoRelease seatId ;;
        v <- view ;;
        ret (LockAcquired seatId userId v)
    end.

(** Lines 128-156: [/confirm] once the seat object is found. *)
Definition confirmSeat (seatId : Z) (userId : string) : SM Response :=
  st <- gets status ;;
  if decide (st = booked) then ret AlreadyBooked
  else if decide (st <> locked) then ret NotLocked
  else
    o <- gets lockOwner ;;
    if decide (o <> Some userId) then ret (NotLockOwner o)
    else
      expired <- lockHasExpired ;;
      if expired then
        releaseLock ;;
        ret LockExpired
      else
        h <- gets timeoutId ;;
        match h with
        | Some h =>
            clearTimeout h ;;
            set_timeoutId None
        | None => ret tt
        end ;;
        set_status booked ;;
        set_lockOwner (Some userId) ;;
        set_lockExpiresAt None ;;
        i <- gets id ;;
        st' <- gets status ;;
        ret (BookingConfirmed seatId userId i st').

(** Lines 168-172: [/release] once the seat object is found. *)
Definition releaseSeat (seatId : Z) (userId : string) : SM Response :=
  st <- gets status ;;
  if decide (st <> locked) then ret ReleaseNotLocked
  else
    o <- gets lockOwner ;;
    if decide (o <> Some userId) then ret ReleaseNotOwner
    else
      releaseLock ;;
      ret (LockReleased seatId).

(** ** The handlers on the whole registry *)

(** Run code on the seat object stored under [i], which is mutated in
    place. *)
Definition onSeat {A} (i : Z) (s : Seat) (c : SM A) (w : World) : A * World :=
  let '(a, (s', r')) := c (s, rt w) in
  (a, mkWorld (<[i := s']> (seats w)) r').

(** The prologue shared by the three POST handlers: validation of the body
    ([seatId] is a number by its type here) and the lookup. *)
Definition handler (body : Z -> string -> SM Response)
    (seatId : Z) (userId : string) (w : World) : Response * World :=
  if decide (userId = EmptyString) then (BadRequest, w)
  else
    match seats w !! seatId with
    | None => (NotFound, w)
    | Some s => onSeat seatId s (body seatId userId) w
    end.

Definition lock := handler lockSeat.
Definition confirm := handler confirmSeat.
Definition release := handler releaseSeat.

(** [GET /seats] reads and answers; the state is untouched. *)
Definition getSeats (w : World) : list SeatView * World :=
  ((fun p => mkView (id p.2) (status p.2) (lockExpiresAt p.2)) <$> map_to_list (seats w), w).

(** The runtime runs a pending timer: it stops being pending and its closure
    runs on the seat object it captured.  When it does so is the runtime's
    choice; the model lets any pending timer run at any moment, early or
    late. *)
Definition timerFires (h : nat) (w : World) : World :=
  match timers (rt w) !! h with
  | None => w
  | Some tm =>
      let w' := mkWorld (seats w)
                  (mkRuntime (delete h (timers (rt w))) (nextTimer (rt w)) (ticks (rt w))) in
      match seats w' !! t_seat tm with
      | None => w'
      | Some s => (onSeat (t_seat tm) s autoReleaseCallback w').2
      end
  end.

(** Lines 58-63: the loop of the sweep over the seat objects named by
    [keys]. *)
Fixpoint cleanupLoop (now : Z) (keys : list Z) (w : World) : World :=
  match keys with
  | [] => w
  | i :: keys' =>
      let w' := match seats w !! i with
                | None => w
                | Some s => (onSeat i s (cleanupSeat now) w).2
                end in
      cleanupLoop now keys' w'
  end.

(** Lines 56-64: one run of the [setInterval] callback.  It reads the clock
    once and visits every seat of the registry; [cleanupLoop_Permutation]
    below shows that the order of the visits does not matter. *)
Definition cleanup (w : World) : World :=
  let now := clock (ticks (rt w)) in
  let w' := mkWorld (seats w)
              (mkRuntime (timers (rt w)) (nextTimer (rt w)) (S (ticks (rt w)))) in
  cleanupLoop now (map_to_list (seats w')).*1 w'.

(** ** Runs of the server

    Whatever the process does after start-up is a sequence of these: a
    request is handled, a pending timer runs, or the sweep runs. *)

Inductive Event : Type :=
  | EvLock (seatId : Z) (userId : string)
  | EvConfirm (seatId : Z) (userId : string)
  | EvRelease (seatId : Z) (userId : string)
  | EvGetSeats
  | EvTimer (h : nat)
  | EvCleanup.

Definition step (w : World) (e : Event) : World :=
  match e with
  | EvLock i u => (lock i u w).2
  | EvConfirm i u => (confirm i u w).2
  | EvRelease i u => (release i u w).2
  | EvGetSeats => (getSeats w).2
  | EvTimer h => timerFires h w
  | EvCleanup => cleanup w
  end.

Definition run (w : World) (es : list Event) : World := fold_left step es w.

(** The same claimant sends [/lock] for the same seat [n] times in a row. *)
Fixpoint lockTimes (n : nat) (i : Z) (u : string) (w : World) : list Response * World :=
  match n with
  | O => ([], w)
  | S n' =>
      let (r, w1) := lock i u w in
      let (rs, w2) := lockTimes n' i u w1 in
      (r :: rs, w2)
  end.

(** The value the [k]-th next call of [Date.now()] returns in [w]. *)
Definition reading (w : World) (k : nat) : Z := clock (ticks (rt w) + k).

(** ** Vocabulary of the properties *)

(** One of the five pieces of code that mutate a seat object ran on it. *)
Inductive seatStep (s : Seat) : Seat -> Prop :=
  | by_lockSeat i u r : seatStep s (lockSeat i u (s, r)).2.1
  | by_confirmSeat i u r : seatStep s (confirmSeat i u (s, r)).2.1
  | by_releaseSeat i u r : seatStep s (releaseSeat i u (s, r)).2.1
  | by_autoReleaseCallback r : seatStep s (autoReleaseCallback (s, r)).2.1
  | by_cleanupSeat now r : seatStep s (cleanupSeat now (s, r)).2.1.

(** The entry of the registry under one key, before and after: the same
    seat object, mutated any number of times. *)
Definition evolves (o o' : option Seat) : Prop :=
  match o, o' with
  | Some s, Some s' => rtc seatStep s s'
  | None, None => True
  | _, _ => False
  end.

(** [n] refreshing calls in a row, the first made when the clock has been
    read [k] times and the expiry is [t]: every call finds a non-zero
    expiry that has not passed.  A refreshing call reads the clock three
    times (check, new expiry, timer delay). *)
Fixpoint liveAtEachCall (n : nat) (k : nat) (t : Z) : Prop :=
  match n with
  | O => True
  | S n' =>
      t <> 0 /\ clock k < t /\
      liveAtEachCall n' (k + 3) (clock (k + 1) + LOCK_DURATION_MS)
  end.

(** The expiry those [n] calls leave behind. *)
Fixpoint expiryAfter (n : nat) (k : nat) (t : Z) : Z :=
  match n with
  | O => t
  | S n' => expiryAfter n' (k + 3) (clock (k + 1) + LOCK_DURATION_MS)
  end.

(** The answers to those [n] calls. *)
Fixpoint refreshes (n : nat) (k : nat) (sid : Z) : list Response :=
  match n with
  | O => []
  | S n' =>
      LockRefreshed (mkView sid locked (Some (clock (k + 1) + LOCK_DURATION_MS)))
      :: refreshes n' (k + 3) sid
  end.

(** Every expiry the seat carries was computed from a clock reading. *)
Definition stampedBy (s : Seat) : Prop :=
  forall t, lockExpiresAt s = Some t -> exists k, t = clock k + LOCK_DURATION_MS.

End Server.

(** The pending timers once the one a seat holds is cleared. *)
Definition cancel (h : option nat) (m : gmap nat Timer) : gmap nat Timer :=
  match h with
  | Some h => delete h m
  | None => m
  end.

(** The seat is locked and its expiry time has passed at [now]. *)
Definition lapsed (now : Z) (s : Seat) : Prop :=
  status s = locked /\ exists t, lockExpiresAt s = Some t /\ t <= now.

(** The seat once its lock is dropped: available, owner, expiry and timer
    handle cleared. *)
Definition released (s : Seat) : Seat := mkSeat (id s) available None None None.

(** What one iteration of the sweep makes of a seat; the runtime plays no
    part in it. *)
Definition swept (now : Z) (s : Seat) : Seat :=
  (cleanupSeat now (s, mkRuntime ∅ 0 0)).2.1.

(** The invariants of section 3 of the specification on one seat. *)
Definition shapeOk (s : Seat) : Prop :=
  (status s = available \/ status s = locked \/ status s = booked) /\
  (lockOwner s <> None <-> status s = locked \/ status s = booked) /\
  (lockExpiresAt s <> None <-> status s = locked).

Definition allShapeOk (w : World) : Prop :=
  forall i s, seats w !! i = Some s -> shapeOk s.

(** Every pending timer is the one its seat holds in [timeoutId]. *)
Definition timersOwned (w : World) : Prop :=
  forall h tmr, timers (rt w) !! h = Some tmr ->
    exists s, seats w !! t_seat tmr = Some s /\ timeoutId s = Some h.

(** What a piece of seat code may do to the timers: nothing, clear the
    seat's timer, or replace it by a fresh one for the same seat. *)
Definition timerEffect (i : Z) (s : Seat) (r : Runtime) (st' : Seat * Runtime) : Prop :=
  (timers st'.2 = timers r /\ timeoutId st'.1 = timeoutId s) \/
  (timers st'.2 = cancel (timeoutId s) (timers r) /\ timeoutId st'.1 = None) \/
  (exists d,
     timers st'.2 = <[nextTimer r := mkTimer i d]> (cancel (timeoutId s) (timers r)) /\
     timeoutId st'.1 = Some (nextTimer r)).

(** ** Two clocks and a few states to run the server on *)

(** A clock that advances by one millisecond per reading. *)
Definition tickClock (n : nat) : Z := 1000 + Z.of_nat n.

(** A clock that stands at 1000 for two readings and at 61000 afterwards:
    a lock taken at the start has its expiry equal to every later
    reading. *)
Definition lateClock (n : nat) : Z := if (n <? 2)%nat then 1000 else 61000.

Definition alice : string := "alice".
Definition bob : string := "bob".

(** Seat 5 has just been locked by alice. *)
Definition aliceHolds (clock : nat -> Z) : World := (lock clock 5 alice initialWorld).2.

(** Alice locked seat 5 and confirmed. *)
Definition aliceBooked : World := (confirm tickClock 5 alice (aliceHolds tickClock)).2.


(** ** The rest of the server: the listing, the clients, the timers *)

(** One entry of the answer of [GET /seats], lines 68-73: the four fields
    the handler copies; [timeoutId] is not among them. *)
Record SeatListing : Type := mkListing {
  l_id : Z;
  l_status : Status;
  l_lockOwner : option string;
  l_lockExpiresAt : option Z
}.

Definition listingOf (s : Seat) : SeatListing :=
  mkListing (id s) (status s) (lockOwner s) (lockExpiresAt s).

(** The keys in the order lines 20-28 put them in the [Map]; nothing is
    ever added or removed, so [seats.values()] always runs in this order. *)
Definition registryOrder : list Z := seqZ 1 20.

(** Lines 67-75: [Array.from(seats.values()).map(...)]; the state is
    untouched. *)
Definition getSeatsListing (w : World) : list SeatListing * World :=
  (omap (fun i => listingOf <$> seats w !! i) registryOrder, w).

(** A seat object holds a timer handle only while it is locked. *)
Definition timerOnlyWhenLocked (s : Seat) : Prop :=
  timeoutId s <> None -> status s = locked.

(** Seat [i] holds the handle [h]. *)
Definition holds (w : World) (i : Z) (h : nat) : Prop :=
  exists s, seats w !! i = Some s /\ timeoutId s = Some h.

Section Clients.

Variable clock : nat -> Z.

(** What the server answers to an event: a response for a POST request,
    nothing for the others. *)
Definition answer (w : World) (e : Event) : option Response :=
  match e with
  | EvLock i u => Some (lock clock i u w).1
  | EvConfirm i u => Some (confirm clock i u w).1
  | EvRelease i u => Some (release i u w).1
  | EvGetSeats | EvTimer _ | EvCleanup => None
  end.

Fixpoint answers (w : World) (es : list Event) : list (option Response) :=
  match es with
  | [] => []
  | e :: es' => answer w e :: answers (step clock w e) es'
  end.

(** The client of test.js, lines 33-50, as the server sees it: the two
    [/lock] requests are sent together and arrive in either order
    ([aFirst]), then come [/confirm] by [userA], [/confirm] by [userB] and
    [GET /seats]. *)
Definition testScript (aFirst : bool) (targetSeat : Z) (userA userB : string) : list Event :=
  (if aFirst
   then [EvLock targetSeat userA; EvLock targetSeat userB]
   else [EvLock targetSeat userB; EvLock targetSeat userA])
  ++ [EvConfirm targetSeat userA; EvConfirm targetSeat userB; EvGetSeats].

(** A delay [scheduleAutoRelease] can ask for when it runs right after the
    expiry was written: the expiry is an earlier reading plus the lease. *)
Definition scheduledDelay (d : Z) : Prop :=
  exists k1 k2, (k1 < k2)%nat /\
    d = Z.max 0 (clock k1 + LOCK_DURATION_MS - clock k2) + 5.

(** What seat code does to the timers, the handle of the seat and the next
    fresh handle. *)
Definition timerEffectN (i : Z) (s : Seat) (r : Runtime) (st' : Seat * Runtime) : Prop :=
  (timers st'.2 = timers r /\ timeoutId st'.1 = timeoutId s /\
   nextTimer st'.2 = nextTimer r) \/
  (timers st'.2 = cancel (timeoutId s) (timers r) /\ timeoutId st'.1 = None /\
   nextTimer st'.2 = nextTimer r) \/
  (exists d, scheduledDelay d /\
     timers st'.2 = <[nextTimer r := mkTimer i d]> (cancel (timeoutId s) (timers r)) /\
     timeoutId st'.1 = Some (nextTimer r) /\
     nextTimer st'.2 = S (nextTimer r)).

(** The timers are well formed: a pending timer has a handle that was
    already given out, a delay that [scheduleAutoRelease] computed, and is
    held by the seat it aims at; handles held by seats were given out, and
    no two seats hold the same one. *)
Definition timersWf (w : World) : Prop :=
  (forall h tmr, timers (rt w) !! h = Some tmr ->
     (h < nextTimer (rt w))%nat /\ scheduledDelay (t_delay tmr) /\
     holds w (t_seat tmr) h) /\
  (forall i h, holds w i h -> (h < nextTimer (rt w))%nat) /\
  (forall i j h, holds w i h -> holds w j h -> i = j).

End Clients.

(** * Properties *)

(** Unfold the code of a handler down to the operations on maps. *)
Ltac sm_unfold :=
  cbv beta iota zeta delta
    [lock confirm release handler onSeat
     lockSeat confirmSeat releaseSeat autoReleaseCallback cleanupSeat
     lockHasExpired releaseLock scheduleAutoRelease view
     bind ret gets set_status set_lockOwner set_lockExpiresAt set_timeoutId
     clearTimeout setTimeout Date_now truthy toNumber cancel
     fst snd negb andb
     id status lockOwner lockExpiresAt timeoutId
     timers nextTimer ticks seats rt].

Ltac absurd_neg :=
  exfalso;
  match goal with
  | H : ¬ (_ ≠ _) |- _ => apply H; congruence
  end.

(** Decide the next test the code makes. *)
Ltac sm_case :=
  match goal with
  | |- context [decide ?P] => destruct (decide P); try congruence; try absurd_neg
  | |- context [bool_decide ?P] => destruct (bool_decide_reflect P); try congruence
  | |- context [Z.eqb ?a ?b] => destruct (Z.eqb_spec a b); try lia
  | |- context [Z.leb ?a ?b] => destruct (Z.leb_spec a b); try lia
  | |- context [match ?x with Some _ => _ | None => _ end] => is_var x; destruct x
  end.

Ltac sm := repeat (sm_unfold; try sm_case).

Ltac open_world w :=
  destruct w as [ss [tm nt tk]];
  unfold reading in *; cbn [seats rt ticks timers nextTimer] in *;
  rewrite ?Nat.add_succ_r, ?Nat.add_0_r in *.

Ltac effect_cases :=
  unfold timerEffect; cbn;
  first [ left; split; reflexivity
        | right; left; split; reflexivity
        | right; right; eexists; split; reflexivity ].

(** Close a goal about a concrete run by running it. *)
Ltac by_computing := vm_compute; first [reflexivity | discriminate | exact I].

Section Properties.

Variable clock : nat -> Z.

(** ** Each seat of the registry evolves by the seat code only *)

Lemma evolves_refl o : evolves clock o o.
Proof. destruct o; simpl; auto. apply rtc_refl. Qed.

Lemma evolves_trans o1 o2 o3 :
  evolves clock o1 o2 -> evolves clock o2 o3 -> evolves clock o1 o3.
Proof. destruct o1, o2, o3; simpl; try tauto. intros; etrans; eauto. Qed.

Lemma onSeat_seats {A} i s (c : SM A) w :
  seats (onSeat i s c w).2 = <[i := (c (s, rt w)).2.1]> (seats w).
Proof. unfold onSeat. destruct (c (s, rt w)) as [a [s' r']]. reflexivity. Qed.

Lemma onSeat_evolves {A} i s (c : SM A) w j :
  seats w !! i = Some s ->
  seatStep clock s (c (s, rt w)).2.1 ->
  evolves clock (seats w !! j) (seats (onSeat i s c w).2 !! j).
Proof.
  intros Hs Hstep. rewrite onSeat_seats.
  destruct (decide (i = j)) as [->|Hne].
  - rewrite lookup_insert_eq, Hs. simpl. apply rtc_once, Hstep.
  - rewrite lookup_insert_ne by done. apply evolves_refl.
Qed.

Lemma handler_evolves body i u w j :
  (forall s r, seatStep clock s (body i u (s, r)).2.1) ->
  evolves clock (seats w !! j) (seats (handler body i u w).2 !! j).
Proof.
  intros Hbody. unfold handler.
  destruct (decide (u = EmptyString)); [apply evolves_refl|].
  destruct (seats w !! i) as [s|] eqn:Hs; [|apply evolves_refl].
  apply onSeat_evolves; auto.
Qed.

Lemma timerFires_evolves h w j :
  evolves clock (seats w !! j) (seats (timerFires clock h w) !! j).
Proof.
  unfold timerFires.
  destruct (timers (rt w) !! h) as [tmr|]; [|apply evolves_refl].
  cbn [seats].
  destruct (seats w !! t_seat tmr) as [s|] eqn:Hs; [|apply evolves_refl].
  apply (onSeat_evolves (t_seat tmr) s (autoReleaseCallback clock)
           (mkWorld (seats w) _) j Hs).
  apply by_autoReleaseCallback.
Qed.

Lemma cleanupLoop_evolves now keys w j :
  evolves clock (seats w !! j) (seats (cleanupLoop now keys w) !! j).
Proof.
  revert w. induction keys as [|i keys IH]; intros w; simpl.
  - apply evolves_refl.
  - eapply evolves_trans; [|apply IH].
    destruct (seats w !! i) as [s|] eqn:Hs; [|apply evolves_refl].
    apply onSeat_evolves; auto. apply by_cleanupSeat.
Qed.

Lemma step_evolves w e j :
  evolves clock (seats w !! j) (seats (step clock w e) !! j).
Proof.
  destruct e; simpl.
  - apply handler_evolves. intros; apply by_lockSeat.
  - apply handler_evolves. intros; apply by_confirmSeat.
  - apply handler_evolves. intros; apply by_releaseSeat.
  - apply evolves_refl.
  - apply timerFires_evolves.
  - unfold cleanup. apply (cleanupLoop_evolves _ _ (mkWorld (seats w) _)).
Qed.

Lemma run_evolves es w j :
  evolves clock (seats w !! j) (seats (run clock w es) !! j).
Proof.
  revert w. induction es as [|e es IH]; intros w; simpl.
  - apply evolves_refl.
  - eapply evolves_trans; [apply step_evolves|apply IH].
Qed.

(** ** What the seat code preserves *)

Lemma seatStep_booked s s' : seatStep clock s s' -> status s = booked -> s' = s.
Proof.
  intros Hstep Hb. destruct s as [i st o e h]. simpl in Hb. subst st.
  destruct Hstep as [j u r|j u r|j u r|r|now r]; destruct r as [tm nt tk];
    sm; reflexivity.
Qed.

Lemma rtc_seatStep_booked s s' :
  rtc (seatStep clock) s s' -> status s = booked -> s' = s.
Proof.
  induction 1 as [|s1 s2 s3 H12 _ IH]; [reflexivity|].
  intros Hb. apply seatStep_booked in H12; [subst s2; auto|auto].
Qed.

Lemma seatStep_shape s s' : seatStep clock s s' -> shapeOk s -> shapeOk s'.
Proof.
  intros Hstep. destruct s as [i st o e h].
  destruct Hstep as [j u r|j u r|j u r|r|now r]; destruct r as [tm nt tk];
    unfold shapeOk; destruct st; sm; cbn; intuition congruence.
Qed.

Lemma rtc_seatStep_shape s s' : rtc (seatStep clock) s s' -> shapeOk s -> shapeOk s'.
Proof. induction 1; eauto using seatStep_shape. Qed.

Lemma seatStep_stamped s s' :
  seatStep clock s s' -> stampedBy clock s -> stampedBy clock s'.
Proof.
  intros Hstep. destruct s as [i st o e h].
  destruct Hstep as [j u r|j u r|j u r|r|now r]; destruct r as [tm nt tk];
    unfold stampedBy; destruct st; sm; cbn; intros Hst t Ht;
    try discriminate; try (apply Hst; exact Ht);
    injection Ht as <-; eexists; reflexivity.
Qed.

Lemma rtc_seatStep_stamped s s' :
  rtc (seatStep clock) s s' -> stampedBy clock s -> stampedBy clock s'.
Proof. induction 1; eauto using seatStep_stamped. Qed.

Lemma initialSeats_lookup i s :
  initialSeats !! i = Some s -> s = mkSeat i available None None None.
Proof.
  unfold initialSeats. intros H. apply elem_of_list_to_map_2 in H.
  apply list_elem_of_fmap in H as [k [Heq _]]. congruence.
Qed.

Lemma initial_shape : allShapeOk initialWorld.
Proof.
  intros i s H. apply initialSeats_lookup in H. subst s.
  unfold shapeOk. simpl. intuition congruence.
Qed.

Lemma step_shape w e : allShapeOk w -> allShapeOk (step clock w e).
Proof.
  intros Hall i s' Hs'. pose proof (step_evolves w e i) as H. rewrite Hs' in H.
  destruct (seats w !! i) as [s|] eqn:Hs; simpl in H; [|tauto].
  apply (rtc_seatStep_shape s); eauto.
Qed.

Lemma run_shape es : forall w, allShapeOk w -> allShapeOk (run clock w es).
Proof.
  induction es as [|e es IH]; intros w Hall; simpl; [exact Hall|].
  apply IH, step_shape, Hall.
Qed.

Lemma run_stamped es i s :
  seats (run clock initialWorld es) !! i = Some s -> stampedBy clock s.
Proof.
  intros Hs. pose proof (run_evolves es initialWorld i) as H. rewrite Hs in H.
  destruct (seats initialWorld !! i) as [s0|] eqn:H0; simpl in H; [|tauto].
  apply (rtc_seatStep_stamped s0); auto.
  apply initialSeats_lookup in H0. subst s0. intros t Ht. discriminate.
Qed.

(** With a clock that shows a time after the epoch, no seat of a run from
    start-up ever carries the expiry [0], the one number that the source's
    [seat.lockExpiresAt && ...] takes for an absent expiry. *)
Lemma run_expiry_nonzero es i s t :
  (forall n, 0 < clock n) ->
  seats (run clock initialWorld es) !! i = Some s ->
  lockExpiresAt s = Some t ->
  LOCK_DURATION_MS < t.
Proof.
  intros Hpos Hs Ht. destruct (run_stamped es i s Hs t Ht) as [k ->].
  specialize (Hpos k). lia.
Qed.

(** ** The sweep, seat by seat *)

Lemma cleanupSeat_seat now s r : (cleanupSeat now (s, r)).2.1 = swept now s.
Proof.
  unfold swept. destruct s as [i st o e h], r as [tm nt tk].
  destruct st; sm; reflexivity.
Qed.

Lemma cleanupLoop_lookup now keys :
  NoDup keys ->
  forall w j,
    seats (cleanupLoop now keys w) !! j =
    if decide (j ∈ keys) then swept now <$> seats w !! j else seats w !! j.
Proof.
  induction 1 as [|i keys Hi Hnd IH]; intros w j; simpl.
  - destruct (decide (j ∈ [])) as [Hin|_]; [|reflexivity].
    apply elem_of_nil in Hin. tauto.
  - rewrite IH.
    destruct (seats w !! i) as [s|] eqn:Hs.
    + rewrite onSeat_seats, cleanupSeat_seat.
      destruct (decide (j = i)) as [->|Hne].
      * rewrite lookup_insert_eq, Hs.
        destruct (decide (i ∈ keys)); [tauto|].
        destruct (decide (i ∈ i :: keys)) as [_|Hn]; [reflexivity|].
        exfalso. apply Hn. left.
      * rewrite lookup_insert_ne by done.
        destruct (decide (j ∈ keys)) as [Hin|Hnin];
          destruct (decide (j ∈ i :: keys)) as [Hin'|Hnin']; try reflexivity.
        -- exfalso. apply Hnin'. right. done.
        -- apply elem_of_cons in Hin' as [?|?]; tauto.
    + destruct (decide (j = i)) as [->|Hne].
      * rewrite Hs. repeat case_decide; reflexivity.
      * destruct (decide (j ∈ keys)) as [Hin|Hnin];
          destruct (decide (j ∈ i :: keys)) as [Hin'|Hnin']; try reflexivity.
        -- exfalso. apply Hnin'. right. done.
        -- apply elem_of_cons in Hin' as [?|?]; tauto.
Qed.

Lemma cleanup_lookup w j :
  seats (cleanup clock w) !! j = swept (reading clock w 0) <$> seats w !! j.
Proof.
  unfold cleanup, reading. rewrite Nat.add_0_r.
  rewrite cleanupLoop_lookup by apply NoDup_fst_map_to_list.
  cbn [seats].
  destruct (decide (j ∈ (map_to_list (seats w)).*1)) as [Hin|Hnin]; [reflexivity|].
  destruct (seats w !! j) as [s|] eqn:Hs; [|reflexivity].
  exfalso. apply Hnin. apply list_elem_of_fmap. exists (j, s). split; [reflexivity|].
  apply elem_of_map_to_list. exact Hs.
Qed.

(** The source's loop visits the seats in the order they were put in the
    [Map]; [cleanup] visits them in the order of [map_to_list].  The order
    makes no difference: an iteration touches the seat it visits and that
    seat's own timer only. *)

Lemma cleanupSeat_cases now s :
  (forall r, cleanupSeat now (s, r) = (tt, (s, r))) \/
  (forall r, cleanupSeat now (s, r) =
     (tt, (released s,
           mkRuntime (cancel (timeoutId s) (timers r)) (nextTimer r) (ticks r)))).
Proof.
  destruct s as [i st o [t|] h]; unfold released;
    [destruct (Z.eqb_spec t 0); destruct (Z.leb_spec t now)|];
    destruct st;
    first [ left; intros [tm nt tk]; sm; reflexivity
          | right; intros [tm nt tk]; sm; reflexivity ].
Qed.

Lemma cancel_comm h1 h2 (m : gmap nat Timer) :
  cancel h1 (cancel h2 m) = cancel h2 (cancel h1 m).
Proof. destruct h1, h2; simpl; auto. apply delete_delete. Qed.

Lemma cleanupLoop_swap now i j keys w :
  cleanupLoop now (i :: j :: keys) w = cleanupLoop now (j :: i :: keys) w.
Proof.
  destruct (decide (i = j)) as [->|Hne]; [reflexivity|].
  cbn [cleanupLoop]. f_equal.
  destruct w as [ss r].
  destruct (ss !! i) as [si|] eqn:Hi; destruct (ss !! j) as [sj|] eqn:Hj;
    cbn [seats]; rewrite ?Hi, ?Hj; unfold onSeat; cbn [rt seats];
    try (destruct (cleanupSeat_cases now si) as [Ei|Ei]);
    try (destruct (cleanupSeat_cases now sj) as [Ej|Ej]);
    rewrite ?Ei, ?Ej; cbn [snd seats rt];
    rewrite ?lookup_insert_ne by done; rewrite ?Hi, ?Hj;
    rewrite ?Ei, ?Ej; cbn [snd seats rt timers nextTimer ticks];
    try reflexivity.
  all: rewrite (insert_insert_ne _ j i) by done; try reflexivity.
  rewrite cancel_comm. reflexivity.
Qed.

Lemma cleanupLoop_Permutation now keys keys' :
  keys ≡ₚ keys' -> forall w, cleanupLoop now keys w = cleanupLoop now keys' w.
Proof.
  induction 1 as [|i k k' _ IH|i j k|k1 k2 k3 _ IH1 _ IH2]; intros w.
  - reflexivity.
  - cbn [cleanupLoop]. apply IH.
  - apply cleanupLoop_swap.
  - rewrite IH1. apply IH2.
Qed.

(** ** Expiry by the timer and by the sweep *)

Lemma autoReleaseCallback_noop s r :
  ~ lapsed (clock (ticks r)) s ->
  exists k,
    autoReleaseCallback clock (s, r) = (tt, (s, mkRuntime (timers r) (nextTimer r) k)).
Proof.
  intros Hn. destruct s as [i st o e h], r as [tm nt tk]. unfold lapsed in Hn.
  cbn [status lockExpiresAt ticks] in Hn.
  destruct st, e as [t|]; sm; eauto; exfalso; apply Hn; eauto.
Qed.

Lemma autoReleaseCallback_fires s r :
  lapsed (clock (ticks r)) s ->
  lockExpiresAt s <> Some 0 ->
  autoReleaseCallback clock (s, r) =
  (tt, (released s,
        mkRuntime (cancel (timeoutId s) (timers r)) (nextTimer r) (S (ticks r)))).
Proof.
  intros [Hst [t [He Ht]]] Hnz. destruct s as [i st o e h], r as [tm nt tk].
  cbn [status lockExpiresAt ticks] in *. subst st e.
  assert (t <> 0) by congruence.
  unfold released. sm; reflexivity.
Qed.

Lemma cleanupSeat_noop now s r :
  ~ lapsed now s -> cleanupSeat now (s, r) = (tt, (s, r)).
Proof.
  intros Hn. destruct s as [i st o e h], r as [tm nt tk]. unfold lapsed in Hn.
  cbn [status lockExpiresAt] in Hn.
  destruct st, e as [t|]; sm; eauto; exfalso; apply Hn; eauto.
Qed.

Lemma cleanupSeat_fires now s r :
  lapsed now s ->
  lockExpiresAt s <> Some 0 ->
  cleanupSeat now (s, r) =
  (tt, (released s, mkRuntime (cancel (timeoutId s) (timers r)) (nextTimer r) (ticks r))).
Proof.
  intros [Hst [t [He Ht]]] Hnz. destruct s as [i st o e h], r as [tm nt tk].
  cbn [status lockExpiresAt ticks] in *. subst st e.
  assert (t <> 0) by congruence.
  unfold released. sm; reflexivity.
Qed.

Lemma swept_noop now s : ~ lapsed now s -> swept now s = s.
Proof. intros Hn. unfold swept. rewrite cleanupSeat_noop by done. reflexivity. Qed.

Lemma swept_fires now s :
  lapsed now s -> lockExpiresAt s <> Some 0 -> swept now s = released s.
Proof. intros Hl Hnz. unfold swept. rewrite cleanupSeat_fires by done. reflexivity. Qed.

Lemma timerFires_noop h w tmr s :
  timers (rt w) !! h = Some tmr ->
  seats w !! t_seat tmr = Some s ->
  ~ lapsed (reading clock w 0) s ->
  seats (timerFires clock h w) = seats w /\
  timers (rt (timerFires clock h w)) = delete h (timers (rt w)) /\
  nextTimer (rt (timerFires clock h w)) = nextTimer (rt w).
Proof.
  intros Hh Hs Hn. open_world w. unfold timerFires. cbn [rt timers seats].
  rewrite Hh, Hs. unfold onSeat. cbn [rt seats timers nextTimer ticks].
  destruct (autoReleaseCallback_noop s (mkRuntime (delete h tm) nt tk) Hn) as [k Hk].
  cbn [timers nextTimer] in Hk. rewrite Hk. cbn. rewrite insert_id by done. auto.
Qed.

Lemma timerFires_fires h w tmr s :
  timers (rt w) !! h = Some tmr ->
  seats w !! t_seat tmr = Some s ->
  lapsed (reading clock w 0) s ->
  lockExpiresAt s <> Some 0 ->
  seats (timerFires clock h w) = <[t_seat tmr := released s]> (seats w) /\
  timers (rt (timerFires clock h w)) = cancel (timeoutId s) (delete h (timers (rt w))).
Proof.
  intros Hh Hs Hl Hnz. open_world w. unfold timerFires. cbn [rt timers seats].
  rewrite Hh, Hs. unfold onSeat. cbn [rt seats timers nextTimer ticks].
  rewrite autoReleaseCallback_fires by done. cbn. auto.
Qed.

Lemma timerFires_stale h w :
  timers (rt w) !! h = None -> timerFires clock h w = w.
Proof. intros Hh. unfold timerFires. rewrite Hh. reflexivity. Qed.

Lemma cleanupLoop_noop now keys w :
  (forall i s, seats w !! i = Some s -> ~ lapsed now s) ->
  cleanupLoop now keys w = w.
Proof.
  intros Hall. induction keys as [|i keys IH]; simpl; [reflexivity|].
  destruct (seats w !! i) as [s|] eqn:Hs; [|exact IH].
  unfold onSeat. rewrite cleanupSeat_noop by eauto. cbn.
  rewrite insert_id by done. destruct w; exact IH.
Qed.

(** ** Pending timers belong to the seat that holds them *)

Lemma lockSeat_effect i u s r : timerEffect i s r (lockSeat clock i u (s, r)).2.
Proof. destruct s as [sid st o e h], r as [tm nt tk]. destruct st; sm; effect_cases. Qed.

Lemma confirmSeat_effect i u s r : timerEffect i s r (confirmSeat clock i u (s, r)).2.
Proof. destruct s as [sid st o e h], r as [tm nt tk]. destruct st; sm; effect_cases. Qed.

Lemma releaseSeat_effect i u s r : timerEffect i s r (releaseSeat i u (s, r)).2.
Proof. destruct s as [sid st o e h], r as [tm nt tk]. destruct st; sm; effect_cases. Qed.

Lemma autoReleaseCallback_effect i s r :
  timerEffect i s r (autoReleaseCallback clock (s, r)).2.
Proof. destruct s as [sid st o e h], r as [tm nt tk]. destruct st; sm; effect_cases. Qed.

Lemma cleanupSeat_effect i now s r : timerEffect i s r (cleanupSeat now (s, r)).2.
Proof. destruct s as [sid st o e h], r as [tm nt tk]. destruct st; sm; effect_cases. Qed.

Lemma cancel_lookup_Some (ho : option nat) (m : gmap nat Timer) h tmr :
  cancel ho m !! h = Some tmr -> m !! h = Some tmr /\ ho <> Some h.
Proof.
  destruct ho as [h0|]; simpl.
  - intros H. apply lookup_delete_Some in H as [Hne H]. split; [done|congruence].
  - intros H. split; [done|congruence].
Qed.

Lemma onSeat_owned {A} i s (c : SM A) w :
  timersOwned w ->
  seats w !! i = Some s ->
  timerEffect i s (rt w) (c (s, rt w)).2 ->
  timersOwned (onSeat i s c w).2.
Proof.
  intros Hown Hs Heff. unfold onSeat, timerEffect in *.
  destruct (c (s, rt w)) as [a [s' r']]. cbn [fst snd] in *.
  assert (Hkeep : forall h tmr, timers (rt w) !! h = Some tmr ->
            timeoutId s <> Some h ->
            exists s0, <[i:=s']> (seats w) !! t_seat tmr = Some s0 /\ timeoutId s0 = Some h).
  { intros h tmr Hh Hne. destruct (Hown h tmr Hh) as [s0 [Hs0 Hid]].
    destruct (decide (i = t_seat tmr)) as [->|Hij].
    - exfalso. apply Hne. congruence.
    - exists s0. rewrite lookup_insert_ne by done. auto. }
  intros h tmr Hh. cbn [seats rt] in *.
  destruct Heff as [[Ht Hid]|[[Ht Hid]|[d [Ht Hid]]]]; rewrite Ht in Hh.
  - destruct (Hown h tmr Hh) as [s0 [Hs0 Hid0]].
    destruct (decide (i = t_seat tmr)) as [->|Hij].
    + exists s'. rewrite lookup_insert_eq. split; [done|]. congruence.
    + exists s0. rewrite lookup_insert_ne by done. auto.
  - apply cancel_lookup_Some in Hh as [Hh Hne]. eauto.
  - destruct (decide (nextTimer (rt w) = h)) as [<-|Hnh].
    + rewrite lookup_insert_eq in Hh. inversion Hh; subst tmr. cbn [t_seat].
      exists s'. rewrite lookup_insert_eq. auto.
    + rewrite lookup_insert_ne in Hh by done.
      apply cancel_lookup_Some in Hh as [Hh Hne]. eauto.
Qed.

Lemma handler_owned body i u w :
  (forall s r, timerEffect i s r (body i u (s, r)).2) ->
  timersOwned w -> timersOwned (handler body i u w).2.
Proof.
  intros Hbody Hown. unfold handler.
  destruct (decide (u = EmptyString)); [exact Hown|].
  destruct (seats w !! i) as [s|] eqn:Hs; [|exact Hown].
  apply onSeat_owned; auto.
Qed.

Lemma timerFires_owned h w : timersOwned w -> timersOwned (timerFires clock h w).
Proof.
  intros Hown. unfold timerFires.
  destruct (timers (rt w) !! h) as [tmr|] eqn:Hh; [|exact Hown].
  assert (Hown' : timersOwned
            (mkWorld (seats w)
               (mkRuntime (delete h (timers (rt w))) (nextTimer (rt w)) (ticks (rt w))))).
  { intros h' tmr' H'. cbn [rt timers seats] in *.
    apply lookup_delete_Some in H' as [_ H']. apply (Hown h' tmr' H'). }
  cbn [seats].
  destruct (seats w !! t_seat tmr) as [s|] eqn:Hs; [|exact Hown'].
  apply onSeat_owned; auto. apply autoReleaseCallback_effect.
Qed.

Lemma cleanupLoop_owned now keys : forall w,
  timersOwned w -> timersOwned (cleanupLoop now keys w).
Proof.
  induction keys as [|i keys IH]; intros w Hown; simpl; [exact Hown|].
  apply IH. destruct (seats w !! i) as [s|] eqn:Hs; [|exact Hown].
  apply onSeat_owned; auto. apply cleanupSeat_effect.
Qed.

Lemma step_owned w e : timersOwned w -> timersOwned (step clock w e).
Proof.
  intros Hown. destruct e; simpl.
  - apply handler_owned; auto. intros; apply lockSeat_effect.
  - apply handler_owned; auto. intros; apply confirmSeat_effect.
  - apply handler_owned; auto. intros; apply releaseSeat_effect.
  - exact Hown.
  - apply timerFires_owned; auto.
  - unfold cleanup. apply cleanupLoop_owned. exact Hown.
Qed.

Lemma initial_owned : timersOwned initialWorld.
Proof. intros h tmr H. cbn in H. rewrite lookup_empty in H. discriminate. Qed.

(** Every state the server reaches from start-up has its timers owned. *)
Lemma run_owned es : forall w, timersOwned w -> timersOwned (run clock w es).
Proof.
  induction es as [|e es IH]; intros w Hown; simpl; [exact Hown|].
  apply IH, step_owned, Hown.
Qed.

(** Once the timer a seat holds is cleared, no pending timer aims at that
    seat. *)
Lemma cancel_leaves_none w i s :
  timersOwned w ->
  seats w !! i = Some s ->
  forall h tmr,
    cancel (timeoutId s) (timers (rt w)) !! h = Some tmr -> t_seat tmr <> i.
Proof.
  intros Hown Hs h tmr Hh Hi. apply cancel_lookup_Some in Hh as [Hh Hne].
  destruct (Hown h tmr Hh) as [s0 [Hs0 Hid]]. rewrite Hi, Hs in Hs0.
  congruence.
Qed.

(** ** The paths of [/lock] that succeed *)

Lemma lock_refresh w i sid A t h :
  seats w !! i = Some (mkSeat sid locked (Some A) (Some t) h) ->
  A <> EmptyString ->
  t <> 0 ->
  reading clock w 0 < t ->
  let e := reading clock w 1 + LOCK_DURATION_MS in
  lock clock i A w =
  (LockRefreshed (mkView sid locked (Some e)),
   mkWorld
     (<[i := mkSeat sid locked (Some A) (Some e) (Some (nextTimer (rt w)))]> (seats w))
     (mkRuntime
        (<[nextTimer (rt w) := mkTimer i (Z.max 0 (e - reading clock w 2) + 5)]>
           (cancel h (timers (rt w))))
        (S (nextTimer (rt w))) (ticks (rt w) + 3))).
Proof.
  intros Hs HA Ht Hlive e. subst e. open_world w.
  replace (tk + 3)%nat with (S (S (S tk))) by lia.
  sm_unfold. rewrite Hs. sm; reflexivity.
Qed.

Lemma lock_available w i sid B :
  seats w !! i = Some (mkSeat sid available None None None) ->
  B <> EmptyString ->
  let e := reading clock w 0 + LOCK_DURATION_MS in
  lock clock i B w =
  (LockAcquired i B (mkView sid locked (Some e)),
   mkWorld
     (<[i := mkSeat sid locked (Some B) (Some e) (Some (nextTimer (rt w)))]> (seats w))
     (mkRuntime
        (<[nextTimer (rt w) := mkTimer i (Z.max 0 (e - reading clock w 1) + 5)]>
           (timers (rt w)))
        (S (nextTimer (rt w))) (ticks (rt w) + 2))).
Proof.
  intros Hs HB e. subst e. open_world w.
  replace (tk + 2)%nat with (S (S tk)) by lia.
  sm_unfold. rewrite Hs. sm; reflexivity.
Qed.

Lemma lockTimes_refreshes n : forall w i sid A t h,
  seats w !! i = Some (mkSeat sid locked (Some A) (Some t) h) ->
  A <> EmptyString ->
  liveAtEachCall clock n (ticks (rt w)) t ->
  (lockTimes clock n i A w).1 = refreshes clock n (ticks (rt w)) sid /\
  exists h',
    seats (lockTimes clock n i A w).2 !! i =
    Some (mkSeat sid locked (Some A) (Some (expiryAfter clock n (ticks (rt w)) t)) h').
Proof.
  induction n as [|n IH]; intros w i sid A t h Hs HA Hlive.
  - simpl. eauto.
  - destruct Hlive as (Ht & Hnow & Hrest).
    cbn [lockTimes].
    rewrite (lock_refresh w i sid A t h)
      by (auto; unfold reading; rewrite Nat.add_0_r; auto).
    unfold reading.
    match goal with |- context [lockTimes clock n i A ?w1] =>
      destruct (IH w1 i sid A (clock (ticks (rt w) + 1) + LOCK_DURATION_MS)
                  (Some (nextTimer (rt w)))) as [Hr [h' Hh']];
        [cbn [seats]; apply lookup_insert_eq | auto | exact Hrest | ];
      destruct (lockTimes clock n i A w1) as [rs w2]
    end.
    cbn [fst snd rt ticks] in *. split.
    + simpl. f_equal. exact Hr.
    + exists h'. exact Hh'.
Qed.

(** ** The claims of the specification

    In the statements a seat [mkSeat sid locked (Some A) (Some t) h] is a
    seat locked by [A] until [t], holding the timer handle [h];
    [reading clock w 0] is the time the next call of [Date.now()] shows.
    Where a statement asks [t <> 0], it is because the source tests
    [seat.lockExpiresAt && ...]: see [run_expiry_nonzero]. *)

(** C1: when a seat is locked by [A] and the lease has not expired, [/lock]
    by another claimant [B] is answered 409 with the message naming [A];
    seats and timers stay as they were. *)
Theorem lock_conflict_reports_holder w i sid A B t h :
  seats w !! i = Some (mkSeat sid locked (Some A) (Some t) h) ->
  reading clock w 0 < t ->
  B <> A ->
  B <> EmptyString ->
  (lock clock i B w).1 = LockConflict (Some A) /\
  httpStatus (lock clock i B w).1 = 409 /\
  seats (lock clock i B w).2 = seats w /\
  timers (rt (lock clock i B w).2) = timers (rt w) /\
  nextTimer (rt (lock clock i B w).2) = nextTimer (rt w).
Proof.
  intros Hs Hlive HBA HB. open_world w.
  sm_unfold. rewrite Hs. sm.
  all: rewrite insert_id; auto.
Qed.

(** C2: [/confirm] by the holder of a lock whose expiry has passed is
    answered "Lock has expired"; the seat becomes available with owner,
    expiry and timer handle cleared, and the timer the seat held is no
    longer pending.  In a state where pending timers are owned (every
    reachable one, [run_owned]) no timer for the seat remains. *)
Theorem confirm_expired_releases w i sid A t h :
  seats w !! i = Some (mkSeat sid locked (Some A) (Some t) h) ->
  t <> 0 ->
  t <= reading clock w 0 ->
  A <> EmptyString ->
  let w' := (confirm clock i A w).2 in
  (confirm clock i A w).1 = LockExpired /\
  seats w' = <[i := mkSeat sid available None None None]> (seats w) /\
  timers (rt w') = cancel h (timers (rt w)) /\
  (timersOwned w ->
   forall h' tmr, timers (rt w') !! h' = Some tmr -> t_seat tmr <> i).
Proof.
  intros Hs Ht Hexp HA w'.
  assert (Hrun : (confirm clock i A w).1 = LockExpired /\
                 seats w' = <[i := mkSeat sid available None None None]> (seats w) /\
                 timers (rt w') = cancel h (timers (rt w))).
  { subst w'. clear - Hs Ht Hexp HA. open_world w.
    sm_unfold. rewrite Hs. sm. all: auto. }
  destruct Hrun as (Hr & Hseats & Htimers). repeat split; auto.
  intros Hown h' tmr Hh'. rewrite Htimers in Hh'.
  apply (cancel_leaves_none w i _ Hown Hs h' tmr Hh').
Qed.

(** C3: [/lock] on a seat whose lock has an expiry that has passed
    succeeds for any claimant, whoever held the stale lock and whatever the
    timers are: the seat is locked by the new claimant until the new
    reading plus the lease, the stale timer is cleared and a new one is
    set. *)
Theorem lock_takes_over_expired w i sid o B t h :
  seats w !! i = Some (mkSeat sid locked o (Some t) h) ->
  t <> 0 ->
  t <= reading clock w 0 ->
  B <> EmptyString ->
  let e := reading clock w 1 + LOCK_DURATION_MS in
  (lock clock i B w).1 = LockAcquired i B (mkView sid locked (Some e)) /\
  seats (lock clock i B w).2 =
    <[i := mkSeat sid locked (Some B) (Some e) (Some (nextTimer (rt w)))]> (seats w) /\
  timers (rt (lock clock i B w).2) =
    <[nextTimer (rt w) := mkTimer i (Z.max 0 (e - reading clock w 2) + 5)]>
      (cancel h (timers (rt w))).
Proof.
  intros Hs Ht Hexp HB e. subst e. open_world w.
  sm_unfold. rewrite Hs. sm.
  all: auto.
Qed.

(** C4: [/lock] by the holder of an unexpired lock is answered "Lock
    refreshed"; the expiry becomes the new reading plus the lease, the old
    timer is cleared and a new one set, the seat stays locked by the same
    owner.  With a clock that does not run backwards the new expiry is not
    before an old one this server wrote.  Any number of such calls in a
    row, each made before the expiry then in force, all succeed and leave
    the seat locked by the owner. *)
Theorem refresh_extends_lease w i sid A t h :
  seats w !! i = Some (mkSeat sid locked (Some A) (Some t) h) ->
  A <> EmptyString ->
  (t <> 0 -> reading clock w 0 < t ->
   let e := reading clock w 1 + LOCK_DURATION_MS in
   (lock clock i A w).1 = LockRefreshed (mkView sid locked (Some e)) /\
   seats (lock clock i A w).2 =
     <[i := mkSeat sid locked (Some A) (Some e) (Some (nextTimer (rt w)))]> (seats w) /\
   timers (rt (lock clock i A w).2) =
     <[nextTimer (rt w) := mkTimer i (Z.max 0 (e - reading clock w 2) + 5)]>
       (cancel h (timers (rt w))) /\
   ((forall a b, (a <= b)%nat -> clock a <= clock b) ->
    (exists k, (k <= ticks (rt w))%nat /\ t = clock k + LOCK_DURATION_MS) ->
    t <= e)) /\
  (forall n,
     liveAtEachCall clock n (ticks (rt w)) t ->
     (lockTimes clock n i A w).1 = refreshes clock n (ticks (rt w)) sid /\
     Forall (fun r => success r = true) (lockTimes clock n i A w).1 /\
     exists h',
       seats (lockTimes clock n i A w).2 !! i =
       Some (mkSeat sid locked (Some A)
               (Some (expiryAfter clock n (ticks (rt w)) t)) h')).
Proof.
  intros Hs HA. split.
  - intros Ht Hlive e.
    rewrite (lock_refresh w i sid A t h Hs HA Ht Hlive).
    cbn [fst snd seats rt timers]. repeat split.
    intros Hmono [k [Hk ->]]. subst e. unfold reading.
    specialize (Hmono k (ticks (rt w) + 1)%nat). lia.
  - intros n Hlive.
    destruct (lockTimes_refreshes n w i sid A t h Hs HA Hlive) as [Hr Hex].
    repeat split; auto.
    rewrite Hr. clear. generalize (ticks (rt w)).
    induction n as [|n IH]; intros k; simpl; constructor; auto.
Qed.

(** C5: a booked seat stays exactly as it is through every run of
    requests, timers and sweeps; [/lock] and [/confirm] on it are answered
    "Seat already booked" ([/release]: "Seat is not locked") and change
    nothing. *)
Theorem booked_is_terminal w i s :
  seats w !! i = Some s ->
  status s = booked ->
  (forall e, seats (step clock w e) !! i = Some s) /\
  (forall es, seats (run clock w es) !! i = Some s) /\
  (forall u, u <> EmptyString ->
     lock clock i u w = (AlreadyBooked, w) /\
     confirm clock i u w = (AlreadyBooked, w) /\
     release i u w = (ReleaseNotLocked, w)).
Proof.
  intros Hs Hb.
  assert (Hrun : forall es, seats (run clock w es) !! i = Some s).
  { intros es. pose proof (run_evolves es w i) as H. rewrite Hs in H.
    destruct (seats (run clock w es) !! i) as [s'|]; simpl in H; [|tauto].
    f_equal. apply (rtc_seatStep_booked); auto. }
  split; [|split].
  - intros e. apply (Hrun [e]).
  - exact Hrun.
  - intros u Hu. destruct s as [sid st o e h]. simpl in Hb. subst st.
    destruct w as [ss [tm nt tk]]. cbn [seats] in Hs.
    repeat split; sm_unfold; rewrite Hs; sm; rewrite insert_id; auto.
Qed.

(** C6: every seat of the initial registry has the shape of section 3
    (status one of the three, owner present exactly when locked or booked,
    expiry present exactly when locked), every request, timer and sweep
    preserves it, hence it holds in every state reached from start-up. *)
Theorem shape_invariant :
  allShapeOk initialWorld /\
  (forall w e, allShapeOk w -> allShapeOk (step clock w e)) /\
  (forall es, allShapeOk (run clock initialWorld es)).
Proof.
  split; [|split].
  - exact initial_shape.
  - exact (step_shape).
  - intros es. apply run_shape, initial_shape.
Qed.

(** C7: the timer callback and the sweep change a seat only when it is
    locked and its expiry has passed at the reading they take; then the
    seat becomes available with owner and expiry cleared.  Otherwise the
    seats are untouched (a timer that ran is just no longer pending, a
    timer that is not pending does nothing, a sweep that finds nothing
    lapsed leaves seats and timers alone).  A seat that is available,
    booked, or locked until later than now is never lapsed.  Neither
    produces a response. *)
Theorem expire_is_guarded (w : World) :
  let now := reading clock w 0 in
  (forall h tmr s,
     timers (rt w) !! h = Some tmr -> seats w !! t_seat tmr = Some s ->
     (~ lapsed now s ->
        seats (timerFires clock h w) = seats w /\
        timers (rt (timerFires clock h w)) = delete h (timers (rt w))) /\
     (lapsed now s -> lockExpiresAt s <> Some 0 ->
        seats (timerFires clock h w) = <[t_seat tmr := released s]> (seats w))) /\
  (forall h, timers (rt w) !! h = None -> timerFires clock h w = w) /\
  (forall i s,
     seats w !! i = Some s ->
     (~ lapsed now s -> seats (cleanup clock w) !! i = Some s) /\
     (lapsed now s -> lockExpiresAt s <> Some 0 ->
        seats (cleanup clock w) !! i = Some (released s))) /\
  ((forall i s, seats w !! i = Some s -> ~ lapsed now s) ->
     seats (cleanup clock w) = seats w /\
     timers (rt (cleanup clock w)) = timers (rt w)) /\
  (forall s,
     status s = available \/ status s = booked \/
     (exists t, lockExpiresAt s = Some t /\ now < t) ->
     ~ lapsed now s).
Proof.
  intros now. split; [|split; [|split; [|split]]].
  - intros h tmr s Hh Hs. split.
    + intros Hn. destruct (timerFires_noop h w tmr s) as (? & ? & ?); auto.
    + intros Hl Hnz. apply (timerFires_fires h w tmr s); auto.
  - intros h Hh. apply timerFires_stale. exact Hh.
  - intros i s Hs. split.
    + intros Hn. rewrite cleanup_lookup, Hs. simpl. f_equal. apply swept_noop; auto.
    + intros Hl Hnz. rewrite cleanup_lookup, Hs. simpl. f_equal. apply swept_fires; auto.
  - intros Hall. unfold cleanup. rewrite cleanupLoop_noop; [split; reflexivity|].
    cbn [seats]. unfold now, reading in Hall. rewrite Nat.add_0_r in Hall. exact Hall.
  - intros s H [Hl [t [He Ht]]].
    destruct H as [H|[H|[t' [He' Ht']]]]; try congruence.
    assert (t = t') by congruence. lia.
Qed.

(** C8: [/release] of a seat that is not locked is answered "Seat is not
    locked", by someone who does not hold the lock "Only lock owner can
    release the lock", both without any change; by the holder it succeeds:
    the seat becomes available with owner, expiry and timer handle cleared
    and its timer is no longer pending (none for the seat when timers are
    owned).  After that [/lock] by any claimant succeeds and the seat is
    locked by that claimant. *)
Theorem release_then_reclaim w i s u :
  seats w !! i = Some s ->
  u <> EmptyString ->
  (status s <> locked -> release i u w = (ReleaseNotLocked, w)) /\
  (status s = locked -> lockOwner s <> Some u -> release i u w = (ReleaseNotOwner, w)) /\
  (status s = locked -> lockOwner s = Some u ->
     release i u w =
       (LockReleased i,
        mkWorld (<[i := released s]> (seats w))
          (mkRuntime (cancel (timeoutId s) (timers (rt w)))
             (nextTimer (rt w)) (ticks (rt w)))) /\
     (timersOwned w ->
      forall h' tmr,
        timers (rt (release i u w).2) !! h' = Some tmr -> t_seat tmr <> i) /\
     forall B, B <> EmptyString ->
       let w' := (release i u w).2 in
       let e := reading clock w 0 + LOCK_DURATION_MS in
       (lock clock i B w').1 = LockAcquired i B (mkView (id s) locked (Some e)) /\
       seats (lock clock i B w').2 !! i =
         Some (mkSeat (id s) locked (Some B) (Some e) (Some (nextTimer (rt w))))).
Proof.
  intros Hs Hu.
  assert (Hrel : status s = locked -> lockOwner s = Some u ->
     release i u w =
       (LockReleased i,
        mkWorld (<[i := released s]> (seats w))
          (mkRuntime (cancel (timeoutId s) (timers (rt w)))
             (nextTimer (rt w)) (ticks (rt w))))).
  { intros Hst Ho. destruct s as [sid st o e h]. cbn [status lockOwner] in *. subst st o.
    open_world w. unfold released. sm_unfold. rewrite Hs. sm; reflexivity. }
  split; [|split].
  - intros Hst. destruct s as [sid st o e h]. cbn [status] in Hst.
    open_world w. sm_unfold. rewrite Hs. sm; rewrite insert_id; auto.
  - intros Hst Ho. destruct s as [sid st o e h]. cbn [status lockOwner] in *. subst st.
    open_world w. sm_unfold. rewrite Hs. sm; rewrite insert_id; auto.
  - intros Hst Ho. split; [auto|split].
    + intros Hown h' tmr Hh'. rewrite Hrel in Hh' by auto. cbn [snd rt timers] in Hh'.
      apply (cancel_leaves_none w i s Hown Hs h' tmr Hh').
    + intros B HB w' e. subst w' e. rewrite Hrel by auto. cbn [snd].
      rewrite (lock_available _ i (id s) B);
        [| cbn [seats]; apply lookup_insert_eq | auto].
      cbn [fst snd seats rt nextTimer]. split.
      * reflexivity.
      * rewrite lookup_insert_eq. reflexivity.
Qed.

(** C9: [/confirm] tests ownership before expiry.  On a seat locked by
    [A], whatever its expiry and so also when it has passed, [/confirm] by
    another claimant [B] is answered 403 naming [A], and nothing changes:
    the seat stays locked by [A] with its expiry and its timer. *)
Theorem confirm_checks_owner_first w i sid A B t h :
  seats w !! i = Some (mkSeat sid locked (Some A) (Some t) h) ->
  B <> A ->
  B <> EmptyString ->
  confirm clock i B w = (NotLockOwner (Some A), w) /\
  httpStatus (confirm clock i B w).1 = 403 /\
  seats (confirm clock i B w).2 !! i = Some (mkSeat sid locked (Some A) (Some t) h).
Proof.
  intros Hs HBA HB.
  assert (H : confirm clock i B w = (NotLockOwner (Some A), w)).
  { clear - Hs HBA HB. open_world w. sm_unfold. rewrite Hs. sm.
    all: rewrite insert_id; auto. }
  rewrite H. auto.
Qed.

(** C10: the four expiry tests agree and include the boundary.  For a seat
    locked by [A] until [t] and a reading [now]: when [t <= now] (so also
    when [now = t]) [/lock] acquires afresh, [/confirm] by [A] is answered
    "Lock has expired", the timer and the sweep release the seat; when
    [now < t] [/lock] refreshes or conflicts, [/confirm] books, the timer
    and the sweep leave the seat. *)
Theorem expiry_boundary_inclusive w i sid A t h u hT d :
  seats w !! i = Some (mkSeat sid locked (Some A) (Some t) h) ->
  t <> 0 ->
  A <> EmptyString ->
  u <> EmptyString ->
  timers (rt w) !! hT = Some (mkTimer i d) ->
  let now := reading clock w 0 in
  let s := mkSeat sid locked (Some A) (Some t) h in
  (t <= now ->
     (lock clock i u w).1 =
       LockAcquired i u (mkView sid locked (Some (reading clock w 1 + LOCK_DURATION_MS))) /\
     (confirm clock i A w).1 = LockExpired /\
     seats (timerFires clock hT w) !! i = Some (released s) /\
     seats (cleanup clock w) !! i = Some (released s)) /\
  (now < t ->
     (lock clock i u w).1 =
       (if decide (u = A)
        then LockRefreshed (mkView sid locked (Some (reading clock w 1 + LOCK_DURATION_MS)))
        else LockConflict (Some A)) /\
     (confirm clock i A w).1 = BookingConfirmed i A sid booked /\
     seats (timerFires clock hT w) !! i = Some s /\
     seats (cleanup clock w) !! i = Some s).
Proof.
  intros Hs Ht HA Hu HT now s.
  assert (Hlap : t <= now -> lapsed now s).
  { intros Hle. split; [reflexivity|]. exists t. auto. }
  assert (Hlive : now < t -> ~ lapsed now s).
  { intros Hlt [_ [t' [He Hle]]]. cbn in He. assert (t' = t) by congruence. lia. }
  assert (Hnz : lockExpiresAt s <> Some 0) by (cbn; congruence).
  split; intros Hcmp; (split; [|split; [|split]]).
  - clear HT. subst now s. open_world w. sm_unfold. rewrite Hs. sm; reflexivity.
  - clear HT. subst now s. open_world w. sm_unfold. rewrite Hs. sm; reflexivity.
  - destruct (timerFires_fires hT w _ s HT Hs (Hlap Hcmp) Hnz) as [-> _].
    cbn [t_seat]. apply lookup_insert_eq.
  - rewrite cleanup_lookup, Hs. cbn [fmap option_fmap option_map]. f_equal.
    apply swept_fires; auto.
  - clear HT. subst now s. open_world w. sm_unfold. rewrite Hs. sm; reflexivity.
  - clear HT. subst now s. open_world w. sm_unfold. rewrite Hs. sm; reflexivity.
  - destruct (timerFires_noop hT w _ s HT Hs (Hlive Hcmp)) as [-> _]. exact Hs.
  - rewrite cleanup_lookup, Hs. cbn [fmap option_fmap option_map]. f_equal.
    apply swept_noop; auto.
Qed.

End Properties.

(** * The rest of the code *)

Ltac effectN_cases :=
  unfold timerEffectN; cbn;
  first [ left; repeat split; reflexivity
        | right; left; repeat split; reflexivity
        | right; right; eexists; (split; [|repeat split; reflexivity]);
          unfold scheduledDelay; do 2 eexists; (split; [|reflexivity]); lia ].

Ltac side_goal :=
  unfold reading; cbn [seats rt ticks]; rewrite ?Nat.add_0_r;
  first
    [ assumption
    | congruence
    | apply lookup_insert_eq
    | match goal with
      | H : ?f ?a < ?t |- ?f ?b < ?t => replace b with a by lia; exact H
      end ].

Section Coverage.

Variable clock : nat -> Z.

(** ** The registry never changes its keys *)

Lemma initialSeats_range i :
  initialSeats !! i =
  if decide (1 <= i <= 20) then Some (mkSeat i available None None None) else None.
Proof.
  unfold initialSeats.
  assert (Hfst : (map (fun i => (i, mkSeat i available None None None)) (seqZ 1 20)).*1
                 = seqZ 1 20).
  { generalize (seqZ 1 20). induction l as [|x l IH]; simpl; [reflexivity|].
    f_equal. exact IH. }
  destruct (decide (1 <= i <= 20)) as [Hin|Hout].
  - apply elem_of_list_to_map_1.
    + rewrite Hfst. apply NoDup_seqZ.
    + apply list_elem_of_In, in_map_iff. exists i. split; [reflexivity|].
      apply list_elem_of_In, elem_of_seqZ. lia.
  - apply not_elem_of_list_to_map_1. rewrite Hfst. rewrite elem_of_seqZ. lia.
Qed.

Lemma seatStep_id s s' : seatStep clock s s' -> id s' = id s.
Proof.
  intros Hstep. destruct s as [i st o e h].
  destruct Hstep as [j u r|j u r|j u r|r|now r]; destruct r as [tm nt tk];
    destruct st; sm; reflexivity.
Qed.

Lemma rtc_seatStep_id s s' : rtc (seatStep clock) s s' -> id s' = id s.
Proof.
  induction 1 as [|s1 s2 s3 H12 _ IH]; [reflexivity|].
  rewrite IH. apply seatStep_id, H12.
Qed.

Lemma seatStep_timerOnlyWhenLocked s s' :
  seatStep clock s s' -> timerOnlyWhenLocked s -> timerOnlyWhenLocked s'.
Proof.
  intros Hstep. destruct s as [i st o e h].
  destruct Hstep as [j u r|j u r|j u r|r|now r]; destruct r as [tm nt tk];
    unfold timerOnlyWhenLocked; destruct st; sm; cbn; intros Hinv Hh;
    try reflexivity; try congruence; try (apply Hinv; congruence).
Qed.

Lemma rtc_seatStep_timerOnlyWhenLocked s s' :
  rtc (seatStep clock) s s' -> timerOnlyWhenLocked s -> timerOnlyWhenLocked s'.
Proof. induction 1; eauto using seatStep_timerOnlyWhenLocked. Qed.

Lemma run_from_initial es i :
  match seats (run clock initialWorld es) !! i with
  | Some s =>
      1 <= i <= 20 /\
      rtc (seatStep clock) (mkSeat i available None None None) s
  | None => ~ (1 <= i <= 20)
  end.
Proof.
  pose proof (run_evolves clock es initialWorld i) as H.
  cbn [seats initialWorld] in H. rewrite initialSeats_range in H.
  destruct (decide (1 <= i <= 20)) as [Hin|Hout];
    destruct (seats (run clock initialWorld es) !! i) as [s|]; simpl in H;
    try tauto.
Qed.

(** X2: the registry holds exactly the seats 1..20 in every state reached
    from start-up, and the seat stored under a key carries that key as its
    [id]: no request, timer or sweep adds, removes or renames a seat. *)
Theorem registry_is_fixed es i :
  (is_Some (seats (run clock initialWorld es) !! i) <-> 1 <= i <= 20) /\
  (forall s, seats (run clock initialWorld es) !! i = Some s -> id s = i).
Proof.
  pose proof (run_from_initial es i) as H.
  destruct (seats (run clock initialWorld es) !! i) as [s|].
  - destruct H as [Hin Hrtc]. split.
    + split; [auto|eauto].
    + intros s' [= <-]. apply rtc_seatStep_id in Hrtc. exact Hrtc.
  - split.
    + split; [intros [s Hs]; discriminate|tauto].
    + intros s Hs. discriminate.
Qed.

(** X1: the three POST handlers validate before they look the seat up and
    before they touch anything.  An empty [userId] is answered 400 whatever
    the seat; otherwise, in any state reached from start-up, a seat id
    outside 1..20 is answered 404 and a seat id inside 1..20 is answered
    neither 400 nor 404.  The rejected requests leave the state as it
    was. *)
Theorem invalid_requests_rejected es i u :
  let w := run clock initialWorld es in
  (lock clock i EmptyString w = (BadRequest, w) /\
   confirm clock i EmptyString w = (BadRequest, w) /\
   release i EmptyString w = (BadRequest, w)) /\
  (u <> EmptyString -> ~ (1 <= i <= 20) ->
   lock clock i u w = (NotFound, w) /\
   confirm clock i u w = (NotFound, w) /\
   release i u w = (NotFound, w)) /\
  (u <> EmptyString -> 1 <= i <= 20 ->
   forall r, In r [(lock clock i u w).1; (confirm clock i u w).1; (release i u w).1] ->
             r <> BadRequest /\ r <> NotFound).
Proof.
  intros w. pose proof (run_from_initial es i) as H. fold w in H.
  split; [|split].
  - unfold lock, confirm, release, handler. repeat split.
  - intros Hu Hout. destruct (seats w !! i) as [s|] eqn:Hs; [tauto|].
    unfold lock, confirm, release, handler.
    destruct (decide (u = EmptyString)); [tauto|]. rewrite Hs. repeat split.
  - intros Hu Hin r Hr. destruct (seats w !! i) as [s|] eqn:Hs; [|tauto].
    destruct s as [sid st o e h]. destruct w as [ss [tm nt tk]].
    cbn [seats] in Hs. clear H.
    simpl in Hr. destruct Hr as [<-|[<-|[<-|[]]]];
      sm_unfold; rewrite Hs; destruct st; sm; split; discriminate.
Qed.

(** ** What a request, a timer or a sweep can and cannot do to a seat *)

Lemma handler_frame body i u w j :
  j <> i -> seats (handler body i u w).2 !! j = seats w !! j.
Proof.
  intros Hne. unfold handler.
  destruct (decide (u = EmptyString)); [reflexivity|].
  destruct (seats w !! i) as [s|]; [|reflexivity].
  rewrite onSeat_seats. apply lookup_insert_ne. congruence.
Qed.

Lemma autoReleaseCallback_cases s r :
  (autoReleaseCallback clock (s, r)).2.1 = s \/
  (autoReleaseCallback clock (s, r)).2.1 = released s.
Proof.
  destruct s as [i st o e h], r as [tm nt tk]. unfold released.
  destruct st; sm; auto.
Qed.

Lemma timerFires_seat h w i s :
  seats w !! i = Some s ->
  seats (timerFires clock h w) !! i = Some s \/
  seats (timerFires clock h w) !! i = Some (released s).
Proof.
  intros Hs. unfold timerFires.
  destruct (timers (rt w) !! h) as [tmr|]; [|auto].
  cbn [seats].
  destruct (seats w !! t_seat tmr) as [s0|] eqn:Hs0; [|auto].
  rewrite onSeat_seats.
  destruct (decide (t_seat tmr = i)) as [Heq|Hne].
  - rewrite Heq in *. rewrite lookup_insert_eq.
    assert (s0 = s) by congruence. subst s0.
    destruct (autoReleaseCallback_cases s
                (rt (mkWorld (seats w)
                       (mkRuntime (delete h (timers (rt w))) (nextTimer (rt w))
                          (ticks (rt w)))))) as [->| ->]; auto.
  - rewrite lookup_insert_ne by done. auto.
Qed.

Lemma timerFires_frame h w tmr j :
  timers (rt w) !! h = Some tmr ->
  t_seat tmr <> j ->
  seats (timerFires clock h w) !! j = seats w !! j.
Proof.
  intros Hh Hne. unfold timerFires. rewrite Hh. cbn [seats].
  destruct (seats w !! t_seat tmr) as [s0|]; [|reflexivity].
  rewrite onSeat_seats. apply lookup_insert_ne. exact Hne.
Qed.

Lemma swept_cases now s : swept now s = s \/ swept now s = released s.
Proof.
  unfold swept. destruct (cleanupSeat_cases now s) as [E|E]; rewrite E; auto.
Qed.


Lemma refused_aux w i u :
  forall rw,
    rw = lock clock i u w \/ rw = confirm clock i u w \/ rw = release i u w ->
    success rw.1 = false ->
    rw.1 <> LockExpired ->
    seats rw.2 = seats w /\
    timers (rt rw.2) = timers (rt w) /\
    nextTimer (rt rw.2) = nextTimer (rt w).
Proof.
  intros rw Hrw. destruct w as [ss [tm nt tk]].
  destruct (decide (u = EmptyString)) as [Hu|Hu].
  { destruct Hrw as [->|[->| ->]]; unfold lock, confirm, release, handler;
      destruct (decide (u = EmptyString)); try tauto; auto. }
  destruct (ss !! i) as [s|] eqn:Hs.
  2:{ destruct Hrw as [->|[->| ->]]; unfold lock, confirm, release, handler;
        destruct (decide (u = EmptyString)); try tauto; cbn [seats]; rewrite Hs; auto. }
  destruct s as [sid st o e h].
  destruct Hrw as [->|[->| ->]]; sm_unfold; rewrite Hs; destruct st; sm;
    intros Hsucc Hexp; cbn in *; try discriminate; try congruence;
    rewrite insert_id by done; auto.
Qed.

(** X4: a request that is refused changes neither seats nor timers, with
    one exception: [/confirm] answered "Lock has expired", which releases
    the lock. *)
Theorem refused_requests_change_nothing w i u r w' :
  lock clock i u w = (r, w') \/ confirm clock i u w = (r, w') \/
  release i u w = (r, w') ->
  success r = false ->
  r <> LockExpired ->
  seats w' = seats w /\
  timers (rt w') = timers (rt w) /\
  nextTimer (rt w') = nextTimer (rt w).
Proof.
  intros H Hs Hne. apply (refused_aux w i u (r, w')); auto.
  destruct H as [H|[H|H]]; rewrite H; auto.
Qed.

(** X5: while a lock has not expired, nothing but a request of its owner
    for that seat changes the seat: not another user's [/lock], [/confirm]
    or [/release], not a request for another seat, not a timer, not the
    sweep. *)
Theorem live_lock_only_owner w i sid A t h e :
  seats w !! i = Some (mkSeat sid locked (Some A) (Some t) h) ->
  reading clock w 0 < t ->
  e <> EvLock i A -> e <> EvConfirm i A -> e <> EvRelease i A ->
  seats (step clock w e) !! i = Some (mkSeat sid locked (Some A) (Some t) h).
Proof.
  intros Hs Hlive HnL HnC HnR.
  assert (Hnl : ~ lapsed (reading clock w 0) (mkSeat sid locked (Some A) (Some t) h)).
  { intros [_ [t' [He Hle]]]. cbn in He. assert (t' = t) by congruence. lia. }
  destruct e as [j u|j u|j u| |h'|]; cbn [step].
  - destruct (decide (j = i)) as [->|Hj]; [|unfold lock, confirm, release; rewrite handler_frame by done; exact Hs].
    assert (u <> A) by congruence.
    clear Hnl HnL HnC HnR. open_world w. sm_unfold.
    destruct (decide (u = EmptyString)); [exact Hs|]. rewrite Hs. sm.
    all: cbn; rewrite lookup_insert_eq; reflexivity.
  - destruct (decide (j = i)) as [->|Hj]; [|unfold lock, confirm, release; rewrite handler_frame by done; exact Hs].
    assert (u <> A) by congruence.
    clear Hnl HnL HnC HnR. open_world w. sm_unfold.
    destruct (decide (u = EmptyString)); [exact Hs|]. rewrite Hs. sm.
    all: cbn; rewrite lookup_insert_eq; reflexivity.
  - destruct (decide (j = i)) as [->|Hj]; [|unfold lock, confirm, release; rewrite handler_frame by done; exact Hs].
    assert (u <> A) by congruence.
    clear Hnl HnL HnC HnR. open_world w. sm_unfold.
    destruct (decide (u = EmptyString)); [exact Hs|]. rewrite Hs. sm.
    all: cbn; rewrite lookup_insert_eq; reflexivity.
  - exact Hs.
  - destruct (timers (rt w) !! h') as [tmr|] eqn:Hh'.
    + destruct (decide (t_seat tmr = i)) as [Heq|Hne].
      * subst i.
        destruct (timerFires_noop clock h' w tmr _ Hh' Hs Hnl) as [-> _]. exact Hs.
      * rewrite (timerFires_frame h' w tmr i Hh' Hne). exact Hs.
    + rewrite timerFires_stale by done. exact Hs.
  - rewrite cleanup_lookup, Hs. cbn [fmap option_fmap option_map]. f_equal.
    apply swept_noop. exact Hnl.
Qed.

(** X6: [/confirm] by the holder of a lock that has not expired books the
    seat: status booked, the owner kept, expiry and timer handle cleared,
    the seat's timer no longer pending and no new one set.  When the
    timers are owned no timer aims at the seat any more. *)
Theorem confirm_books w i sid A t h :
  seats w !! i = Some (mkSeat sid locked (Some A) (Some t) h) ->
  A <> EmptyString ->
  reading clock w 0 < t ->
  let w' := (confirm clock i A w).2 in
  (confirm clock i A w).1 = BookingConfirmed i A sid booked /\
  seats w' = <[i := mkSeat sid booked (Some A) None None]> (seats w) /\
  timers (rt w') = cancel h (timers (rt w)) /\
  nextTimer (rt w') = nextTimer (rt w) /\
  (timersOwned w ->
   forall h' tmr, timers (rt w') !! h' = Some tmr -> t_seat tmr <> i).
Proof.
  intros Hs HA Hlive w'.
  assert (Hrun : (confirm clock i A w).1 = BookingConfirmed i A sid booked /\
                 seats w' = <[i := mkSeat sid booked (Some A) None None]> (seats w) /\
                 timers (rt w') = cancel h (timers (rt w)) /\
                 nextTimer (rt w') = nextTimer (rt w)).
  { subst w'. clear - Hs HA Hlive. open_world w.
    sm_unfold. rewrite Hs. sm. all: auto. }
  destruct Hrun as (Hr & Hseats & Htimers & Hnt). repeat split; auto.
  intros Hown h' tmr Hh'. rewrite Htimers in Hh'.
  apply (cancel_leaves_none w i _ Hown Hs h' tmr Hh').
Qed.

(** X7: [/lock] on an available seat succeeds for every non-empty user.
    The seat is locked by that user until the reading plus 60000, holds a
    new timer, and that timer is due 5 ms after the expiry unless the
    clock passed the expiry in between.  Whatever timer handle the seat
    object still carried is cleared first. *)
Theorem lock_available_seat w i s B :
  seats w !! i = Some s ->
  status s = available ->
  B <> EmptyString ->
  let e := reading clock w 0 + LOCK_DURATION_MS in
  let d := Z.max 0 (e - reading clock w 1) + 5 in
  (lock clock i B w).1 = LockAcquired i B (mkView (id s) locked (Some e)) /\
  seats (lock clock i B w).2 =
    <[i := mkSeat (id s) locked (Some B) (Some e) (Some (nextTimer (rt w)))]> (seats w) /\
  timers (rt (lock clock i B w).2) =
    <[nextTimer (rt w) := mkTimer i d]> (cancel (timeoutId s) (timers (rt w))) /\
  nextTimer (rt (lock clock i B w).2) = S (nextTimer (rt w)) /\
  (reading clock w 1 <= e -> reading clock w 1 + d = e + 5).
Proof.
  intros Hs Hst HB e d. subst e d. destruct s as [sid st o e h].
  cbn [status] in Hst. subst st. open_world w.
  sm_unfold. rewrite Hs. sm.
  all: repeat split; auto; lia.
Qed.

Lemma handler_lookup body i u w s :
  seats w !! i = Some s ->
  seats (handler body i u w).2 !! i =
  Some (if decide (u = EmptyString) then s else (body i u (s, rt w)).2.1).
Proof.
  intros Hs. unfold handler. destruct (decide (u = EmptyString)); [exact Hs|].
  rewrite Hs, onSeat_seats. apply lookup_insert_eq.
Qed.

Lemma lockSeat_status i u s r :
  status s <> booked -> status (lockSeat clock i u (s, r)).2.1 = locked.
Proof.
  destruct s as [sid st o e h], r as [tm nt tk]. cbn [status].
  destruct st; sm; cbn; congruence.
Qed.

Lemma releaseSeat_status i u s r :
  status s <> booked -> status (releaseSeat i u (s, r)).2.1 <> booked.
Proof.
  destruct s as [sid st o e h], r as [tm nt tk]. cbn [status].
  destruct st; sm; cbn; congruence.
Qed.

Lemma confirmSeat_books i u s r :
  status s <> booked ->
  status (confirmSeat clock i u (s, r)).2.1 = booked ->
  status s = locked /\ lockOwner s = Some u /\
  lockOwner (confirmSeat clock i u (s, r)).2.1 = Some u /\
  ~ (exists t, lockExpiresAt s = Some t /\ t <> 0 /\ t <= clock (ticks r)).
Proof.
  destruct s as [sid st o e h], r as [tm nt tk]. cbn [status lockOwner lockExpiresAt ticks].
  destruct st; sm; cbn; intros Hnb Hb; try congruence.
  all: repeat split; auto; try (apply dec_stable; assumption).
  all: intros (t' & Ht' & Hnz & Hle); try discriminate; injection Ht' as <-; lia.
Qed.

(** X8: a seat that is not booked becomes booked by one event only:
    [/confirm] for that seat by the user who holds its lock, at a reading
    before the expiry; the booking carries that user. *)
Theorem booked_only_by_confirm w e i s s' :
  seats w !! i = Some s ->
  status s <> booked ->
  seats (step clock w e) !! i = Some s' ->
  status s' = booked ->
  exists u,
    e = EvConfirm i u /\ u <> EmptyString /\
    status s = locked /\ lockOwner s = Some u /\ lockOwner s' = Some u /\
    ~ (exists t, lockExpiresAt s = Some t /\ t <> 0 /\ t <= reading clock w 0).
Proof.
  intros Hs Hnb Hs' Hb.
  assert (Hsame : s' = s \/ s' = released s -> False).
  { intros [->| ->]; [tauto|discriminate Hb]. }
  destruct e as [j u|j u|j u| |h'|]; cbn [step] in Hs'.
  - exfalso. destruct (decide (j = i)) as [->|Hj].
    + unfold lock in Hs'. rewrite (handler_lookup _ i u w s Hs) in Hs'.
      injection Hs' as <-. destruct (decide (u = EmptyString)); [tauto|].
      rewrite lockSeat_status in Hb by done. discriminate.
    + unfold lock in Hs'. rewrite handler_frame in Hs' by done.
      apply Hsame. left. congruence.
  - destruct (decide (j = i)) as [->|Hj].
    + unfold confirm in Hs'. rewrite (handler_lookup _ i u w s Hs) in Hs'.
      injection Hs' as <-. destruct (decide (u = EmptyString)) as [|Hu]; [tauto|].
      exists u. destruct (confirmSeat_books i u s (rt w) Hnb Hb) as (H1 & H2 & H3 & H4).
      unfold reading. rewrite Nat.add_0_r. auto 10.
    + exfalso. unfold confirm in Hs'. rewrite handler_frame in Hs' by done.
      apply Hsame. left. congruence.
  - exfalso. destruct (decide (j = i)) as [->|Hj].
    + unfold release in Hs'. rewrite (handler_lookup _ i u w s Hs) in Hs'.
      injection Hs' as <-. destruct (decide (u = EmptyString)); [tauto|].
      apply (releaseSeat_status i u s (rt w)); auto.
    + unfold release in Hs'. rewrite handler_frame in Hs' by done.
      apply Hsame. left. congruence.
  - exfalso. apply Hsame. left. cbn in Hs'. congruence.
  - exfalso. apply Hsame.
    destruct (timerFires_seat h' w i s Hs) as [H|H]; rewrite H in Hs'; [left|right];
      congruence.
  - exfalso. apply Hsame. rewrite cleanup_lookup, Hs in Hs'.
    cbn [fmap option_fmap option_map] in Hs'. injection Hs' as <-.
    apply swept_cases.
Qed.

Lemma confirmSeat_owner i u s r v :
  status (confirmSeat clock i u (s, r)).2.1 = locked ->
  lockOwner (confirmSeat clock i u (s, r)).2.1 = Some v ->
  status s = locked /\ lockOwner s = Some v.
Proof.
  destruct s as [sid st o e h], r as [tm nt tk]. cbn [status lockOwner].
  destruct st; sm; cbn; intros H1 H2; try congruence; auto.
Qed.

Lemma releaseSeat_owner i u s r v :
  status (releaseSeat i u (s, r)).2.1 = locked ->
  lockOwner (releaseSeat i u (s, r)).2.1 = Some v ->
  status s = locked /\ lockOwner s = Some v.
Proof.
  destruct s as [sid st o e h], r as [tm nt tk]. cbn [status lockOwner].
  destruct st; sm; cbn; intros H1 H2; try congruence; auto.
Qed.

Lemma lockSeat_owner i u s r v :
  status (lockSeat clock i u (s, r)).2.1 = locked ->
  lockOwner (lockSeat clock i u (s, r)).2.1 = Some v ->
  (status s = locked /\ lockOwner s = Some v) \/ v = u.
Proof.
  destruct s as [sid st o e h], r as [tm nt tk]. cbn [status lockOwner].
  destruct st; sm; cbn; intros H1 H2; try congruence; auto.
  all: right; congruence.
Qed.

(** X9: a seat comes to be locked by a user through that user's own
    [/lock] for that seat and through nothing else: after any event, a seat
    locked by [v] either was locked by [v] before or the event is [v]'s
    [/lock]. *)
Theorem locked_only_by_own_lock w e i s s' v :
  seats w !! i = Some s ->
  seats (step clock w e) !! i = Some s' ->
  status s' = locked ->
  lockOwner s' = Some v ->
  (status s = locked /\ lockOwner s = Some v) \/
  (e = EvLock i v /\ v <> EmptyString).
Proof.
  intros Hs Hs' Hst Ho.
  assert (Hsame : s' = s \/ s' = released s ->
                  status s = locked /\ lockOwner s = Some v).
  { intros [->| ->]; [auto|discriminate Hst]. }
  destruct e as [j u|j u|j u| |h'|]; cbn [step] in Hs'.
  - destruct (decide (j = i)) as [->|Hj].
    + unfold lock in Hs'. rewrite (handler_lookup _ i u w s Hs) in Hs'.
      injection Hs' as <-. destruct (decide (u = EmptyString)); [auto|].
      destruct (lockSeat_owner i u s (rt w) v Hst Ho) as [H| ->]; auto.
    + unfold lock in Hs'. rewrite handler_frame in Hs' by done.
      left. apply Hsame. left. congruence.
  - left. destruct (decide (j = i)) as [->|Hj].
    + unfold confirm in Hs'. rewrite (handler_lookup _ i u w s Hs) in Hs'.
      injection Hs' as <-. destruct (decide (u = EmptyString)); [auto|].
      apply (confirmSeat_owner i u s (rt w) v Hst Ho).
    + unfold confirm in Hs'. rewrite handler_frame in Hs' by done.
      apply Hsame. left. congruence.
  - left. destruct (decide (j = i)) as [->|Hj].
    + unfold release in Hs'. rewrite (handler_lookup _ i u w s Hs) in Hs'.
      injection Hs' as <-. destruct (decide (u = EmptyString)); [auto|].
      apply (releaseSeat_owner i u s (rt w) v Hst Ho).
    + unfold release in Hs'. rewrite handler_frame in Hs' by done.
      apply Hsame. left. congruence.
  - left. apply Hsame. left. cbn in Hs'. congruence.
  - left. apply Hsame.
    destruct (timerFires_seat h' w i s Hs) as [H|H]; rewrite H in Hs'; [left|right];
      congruence.
  - left. apply Hsame. rewrite cleanup_lookup, Hs in Hs'.
    cbn [fmap option_fmap option_map] in Hs'. injection Hs' as <-.
    apply swept_cases.
Qed.

(** X15: after a sweep no seat is left locked with a non-zero expiry that
    had passed at the reading the sweep took. *)
Theorem sweep_leaves_no_lapsed_lock w i s' :
  seats (cleanup clock w) !! i = Some s' ->
  lockExpiresAt s' <> Some 0 ->
  ~ lapsed (reading clock w 0) s'.
Proof.
  intros Hs' Hnz Hl. rewrite cleanup_lookup in Hs'.
  destruct (seats w !! i) as [s|]; [|discriminate].
  cbn [fmap option_fmap option_map] in Hs'. injection Hs' as <-.
  destruct (swept_cases (reading clock w 0) s) as [E|E]; rewrite E in *.
  - rewrite swept_fires in E by auto. rewrite <- E in Hl.
    destruct Hl as [Hst _]. discriminate.
  - destruct Hl as [Hst _]. discriminate.
Qed.

(** ** The timers are well formed in every state *)

Lemma lockSeat_effectN i u s r : timerEffectN clock i s r (lockSeat clock i u (s, r)).2.
Proof. destruct s as [sid st o e h], r as [tm nt tk]. destruct st; sm; effectN_cases. Qed.

Lemma confirmSeat_effectN i u s r :
  timerEffectN clock i s r (confirmSeat clock i u (s, r)).2.
Proof. destruct s as [sid st o e h], r as [tm nt tk]. destruct st; sm; effectN_cases. Qed.

Lemma releaseSeat_effectN i u s r : timerEffectN clock i s r (releaseSeat i u (s, r)).2.
Proof. destruct s as [sid st o e h], r as [tm nt tk]. destruct st; sm; effectN_cases. Qed.

Lemma autoReleaseCallback_effectN i s r :
  timerEffectN clock i s r (autoReleaseCallback clock (s, r)).2.
Proof. destruct s as [sid st o e h], r as [tm nt tk]. destruct st; sm; effectN_cases. Qed.

Lemma cleanupSeat_effectN i now s r : timerEffectN clock i s r (cleanupSeat now (s, r)).2.
Proof. destruct s as [sid st o e h], r as [tm nt tk]. destruct st; sm; effectN_cases. Qed.

Lemma holds_self_1 ss r i s h :
  holds (mkWorld (<[i := s]> ss) r) i h -> timeoutId s = Some h.
Proof.
  unfold holds. cbn [seats]. rewrite lookup_insert_eq.
  intros [s0 [[= <-] H]]. exact H.
Qed.

Lemma holds_self_2 ss r i s h :
  timeoutId s = Some h -> holds (mkWorld (<[i := s]> ss) r) i h.
Proof. unfold holds. cbn [seats]. rewrite lookup_insert_eq. eauto. Qed.

Lemma holds_other_1 ss r r0 i s j h :
  j <> i -> holds (mkWorld (<[i := s]> ss) r) j h -> holds (mkWorld ss r0) j h.
Proof.
  intros Hne. unfold holds. cbn [seats]. rewrite lookup_insert_ne by congruence. tauto.
Qed.

Lemma holds_other_2 ss r r0 i s j h :
  j <> i -> holds (mkWorld ss r0) j h -> holds (mkWorld (<[i := s]> ss) r) j h.
Proof.
  intros Hne. unfold holds. cbn [seats]. rewrite lookup_insert_ne by congruence. tauto.
Qed.

Lemma onSeat_wf {A} i s (c : SM A) w :
  timersWf clock w ->
  seats w !! i = Some s ->
  timerEffectN clock i s (rt w) (c (s, rt w)).2 ->
  timersWf clock (onSeat i s c w).2.
Proof.
  intros (Hpend & Hheld & Huniq) Hs Heff. unfold onSeat, timerEffectN in *.
  destruct (c (s, rt w)) as [a [s' r']]. destruct w as [ss r].
  cbn [fst snd seats rt] in *.
  assert (Hi1 : forall h, holds (mkWorld ss r) i h -> timeoutId s = Some h).
  { intros h [s0 [Hs0 H]]. cbn [seats] in Hs0. congruence. }
  assert (Hi2 : forall h, timeoutId s = Some h -> holds (mkWorld ss r) i h).
  { intros h H. exists s. auto. }
  assert (Hold : forall h tmr, timers r !! h = Some tmr -> timeoutId s <> Some h ->
            (h < nextTimer r)%nat /\ scheduledDelay clock (t_delay tmr) /\
            holds (mkWorld (<[i:=s']> ss) r') (t_seat tmr) h).
  { intros h tmr Hh Hne. destruct (Hpend h tmr Hh) as (Hlt & Hd & Hhold).
    repeat split; auto.
    destruct (decide (t_seat tmr = i)) as [Heq|Hj].
    - exfalso. apply Hne, Hi1. rewrite <- Heq. exact Hhold.
    - apply (holds_other_2 ss r' r); auto. }
  assert (Hback : forall j h, j <> i ->
            holds (mkWorld (<[i:=s']> ss) r') j h -> holds (mkWorld ss r) j h).
  { intros j h Hj Hh. apply (holds_other_1 ss r' r) in Hh; auto. }
  unfold timersWf. cbn [rt].
  destruct Heff as [(Ht & Hid & Hnt)|[(Ht & Hid & Hnt)|(d & Hd & Ht & Hid & Hnt)]];
    rewrite Hnt, Ht; (split; [|split]).
  - intros h tmr Hh. destruct (Hpend h tmr Hh) as (Hlt & Hsd & Hhold).
    repeat split; auto.
    destruct (decide (t_seat tmr = i)) as [Heq|Hj].
    + rewrite Heq in *. apply holds_self_2. rewrite Hid. apply Hi1, Hhold.
    + apply (holds_other_2 ss r' r); auto.
  - intros j h Hh. destruct (decide (j = i)) as [->|Hj].
    + apply (Hheld i). apply Hi2. rewrite <- Hid. apply (holds_self_1 ss r' i s' h Hh).
    + apply (Hheld j). auto.
  - intros j k h Hj Hk.
    apply (Huniq j k h).
    + destruct (decide (j = i)) as [->|Hne]; [|auto].
      apply Hi2. rewrite <- Hid. apply (holds_self_1 ss r' i s' h Hj).
    + destruct (decide (k = i)) as [->|Hne]; [|auto].
      apply Hi2. rewrite <- Hid. apply (holds_self_1 ss r' i s' h Hk).
  - intros h tmr Hh. apply cancel_lookup_Some in Hh as [Hh Hne]. auto.
  - intros j h Hh. destruct (decide (j = i)) as [->|Hj].
    + apply holds_self_1 in Hh. congruence.
    + apply (Hheld j). auto.
  - intros j k h Hj Hk.
    destruct (decide (j = i)) as [->|Hnj]; [apply holds_self_1 in Hj; congruence|].
    destruct (decide (k = i)) as [->|Hnk]; [apply holds_self_1 in Hk; congruence|].
    apply (Huniq j k h); auto.
  - intros h tmr Hh. destruct (decide (nextTimer r = h)) as [<-|Hnh].
    + rewrite lookup_insert_eq in Hh. injection Hh as <-. cbn [t_seat t_delay].
      repeat split; [lia|exact Hd|]. apply holds_self_2. exact Hid.
    + rewrite lookup_insert_ne in Hh by done.
      apply cancel_lookup_Some in Hh as [Hh Hne].
      destruct (Hold h tmr Hh Hne) as (Hlt & Hsd & Hhold). repeat split; auto.
  - intros j h Hh. destruct (decide (j = i)) as [->|Hj].
    + apply holds_self_1 in Hh. assert (h = nextTimer r) by congruence. lia.
    + apply Hback in Hh; auto. apply Hheld in Hh. lia.
  - intros j k h Hj Hk.
    destruct (decide (j = i)) as [->|Hnj]; destruct (decide (k = i)) as [->|Hnk]; auto.
    + exfalso. apply holds_self_1 in Hj. apply Hback in Hk; auto.
      apply Hheld in Hk. assert (h = nextTimer r) by congruence. lia.
    + exfalso. apply holds_self_1 in Hk. apply Hback in Hj; auto.
      apply Hheld in Hj. assert (h = nextTimer r) by congruence. lia.
    + apply (Huniq j k h); auto.
Qed.

Lemma handler_wf body i u w :
  (forall s r, timerEffectN clock i s r (body i u (s, r)).2) ->
  timersWf clock w -> timersWf clock (handler body i u w).2.
Proof.
  intros Hbody Hwf. unfold handler.
  destruct (decide (u = EmptyString)); [exact Hwf|].
  destruct (seats w !! i) as [s|] eqn:Hs; [|exact Hwf].
  apply onSeat_wf; auto.
Qed.

Lemma timerFires_wf h w : timersWf clock w -> timersWf clock (timerFires clock h w).
Proof.
  intros Hwf. unfold timerFires.
  destruct (timers (rt w) !! h) as [tmr|] eqn:Hh; [|exact Hwf].
  assert (Hwf' : timersWf clock
            (mkWorld (seats w)
               (mkRuntime (delete h (timers (rt w))) (nextTimer (rt w)) (ticks (rt w))))).
  { destruct Hwf as (Hpend & Hheld & Huniq). split; [|split].
    - intros h' tmr' H'. cbn [rt timers nextTimer] in *.
      apply lookup_delete_Some in H' as [_ H']. apply (Hpend h' tmr' H').
    - exact Hheld.
    - exact Huniq. }
  cbn [seats].
  destruct (seats w !! t_seat tmr) as [s|] eqn:Hs; [|exact Hwf'].
  apply onSeat_wf; auto. apply autoReleaseCallback_effectN.
Qed.

Lemma cleanupLoop_wf now keys : forall w,
  timersWf clock w -> timersWf clock (cleanupLoop now keys w).
Proof.
  induction keys as [|i keys IH]; intros w Hwf; simpl; [exact Hwf|].
  apply IH. destruct (seats w !! i) as [s|] eqn:Hs; [|exact Hwf].
  apply onSeat_wf; auto. apply cleanupSeat_effectN.
Qed.

Lemma step_wf w e : timersWf clock w -> timersWf clock (step clock w e).
Proof.
  intros Hwf. destruct e; simpl.
  - apply handler_wf; auto. intros; apply lockSeat_effectN.
  - apply handler_wf; auto. intros; apply confirmSeat_effectN.
  - apply handler_wf; auto. intros; apply releaseSeat_effectN.
  - exact Hwf.
  - apply timerFires_wf; auto.
  - unfold cleanup. apply cleanupLoop_wf.
    destruct Hwf as (Hpend & Hheld & Huniq). split; [|split]; auto.
Qed.

Lemma run_wf es : forall w, timersWf clock w -> timersWf clock (run clock w es).
Proof.
  induction es as [|e es IH]; intros w Hwf; simpl; [exact Hwf|].
  apply IH, step_wf, Hwf.
Qed.

Lemma initial_wf : timersWf clock initialWorld.
Proof.
  split; [|split].
  - intros h tmr H. cbn in H. rewrite lookup_empty in H. discriminate.
  - intros i h [s [Hs Hid]]. cbn [seats initialWorld] in Hs.
    apply initialSeats_lookup in Hs. subst s. discriminate.
  - intros i j h [s [Hs Hid]]. cbn [seats initialWorld] in Hs.
    apply initialSeats_lookup in Hs. subst s. discriminate.
Qed.

Lemma run_timerOnlyWhenLocked es i s :
  seats (run clock initialWorld es) !! i = Some s -> timerOnlyWhenLocked s.
Proof.
  intros Hs. pose proof (run_from_initial es i) as H. rewrite Hs in H.
  destruct H as [_ Hrtc].
  apply (rtc_seatStep_timerOnlyWhenLocked _ _ Hrtc). intros Hn. cbn in Hn. congruence.
Qed.

(** X10: in every state reached from start-up a pending timer aims at a
    seat that is locked and holds exactly that timer; so a seat has at
    most one pending timer, and an available or booked seat has none. *)
Theorem pending_timer_means_locked es h tmr :
  let w := run clock initialWorld es in
  timers (rt w) !! h = Some tmr ->
  (exists s, seats w !! t_seat tmr = Some s /\ status s = locked /\
             timeoutId s = Some h) /\
  (forall h' tmr', timers (rt w) !! h' = Some tmr' ->
     t_seat tmr' = t_seat tmr -> h' = h).
Proof.
  intros w Hh.
  destruct (run_wf es initialWorld initial_wf) as (Hpend & _ & _). fold w in Hpend.
  destruct (Hpend h tmr Hh) as (_ & _ & s & Hs & Hid). split.
  - exists s. repeat split; auto.
    apply (run_timerOnlyWhenLocked es (t_seat tmr) s Hs). congruence.
  - intros h' tmr' Hh' Heq.
    destruct (Hpend h' tmr' Hh') as (_ & _ & s' & Hs' & Hid').
    rewrite Heq in Hs'. congruence.
Qed.

(** X11: every timer the server has pending was asked for with a delay of
    at least 5 ms, and, when the clock never runs backwards, of at most
    60005 ms. *)
Theorem timer_delay_bounds es h tmr :
  timers (rt (run clock initialWorld es)) !! h = Some tmr ->
  5 <= t_delay tmr /\
  ((forall a b, (a <= b)%nat -> clock a <= clock b) ->
   t_delay tmr <= LOCK_DURATION_MS + 5).
Proof.
  intros Hh.
  destruct (run_wf es initialWorld initial_wf) as (Hpend & _ & _).
  destruct (Hpend h tmr Hh) as (_ & (k1 & k2 & Hk & ->) & _). split; [lia|].
  intros Hmono. assert (clock k1 <= clock k2) by (apply Hmono; lia).
  unfold LOCK_DURATION_MS. lia.
Qed.

Lemma onSeat_keeps_timer {A} i s (c : SM A) w h tmr :
  timersWf clock w ->
  seats w !! i = Some s ->
  timerEffectN clock i s (rt w) (c (s, rt w)).2 ->
  timers (rt w) !! h = Some tmr ->
  t_seat tmr <> i ->
  timers (rt (onSeat i s c w).2) !! h = Some tmr.
Proof.
  intros (Hpend & Hheld & Huniq) Hs Heff Hh Hne. unfold onSeat, timerEffectN in *.
  destruct (c (s, rt w)) as [a [s' r']]. cbn [fst snd rt] in *.
  destruct (Hpend h tmr Hh) as (Hlt & _ & Hhold).
  assert (Hnh : timeoutId s <> Some h).
  { intros Hid. apply Hne. apply (Huniq (t_seat tmr) i h Hhold). exists s. auto. }
  assert (Hc : cancel (timeoutId s) (timers (rt w)) !! h = Some tmr).
  { destruct (timeoutId s) as [h0|]; simpl; [|exact Hh].
    rewrite lookup_delete_ne by congruence. exact Hh. }
  destruct Heff as [(Ht & _)|[(Ht & _)|(d & _ & Ht & _)]]; rewrite Ht; auto.
  rewrite lookup_insert_ne by lia. exact Hc.
Qed.

Lemma handler_keeps_timer body i u w h tmr :
  (forall s r, timerEffectN clock i s r (body i u (s, r)).2) ->
  timersWf clock w ->
  timers (rt w) !! h = Some tmr ->
  t_seat tmr <> i ->
  timers (rt (handler body i u w).2) !! h = Some tmr.
Proof.
  intros Hbody Hwf Hh Hne. unfold handler.
  destruct (decide (u = EmptyString)); [exact Hh|].
  destruct (seats w !! i) as [s|] eqn:Hs; [|exact Hh].
  apply onSeat_keeps_timer; auto.
Qed.

(** X16: a request for one seat never cancels or replaces the pending
    timer of another seat (in a state whose timers are well formed, as
    every state reached from start-up is). *)
Theorem requests_keep_other_timers w i u h tmr :
  timersWf clock w ->
  timers (rt w) !! h = Some tmr ->
  t_seat tmr <> i ->
  timers (rt (lock clock i u w).2) !! h = Some tmr /\
  timers (rt (confirm clock i u w).2) !! h = Some tmr /\
  timers (rt (release i u w).2) !! h = Some tmr.
Proof.
  intros Hwf Hh Hne. repeat split; apply handler_keeps_timer; auto; intros.
  - apply lockSeat_effectN.
  - apply confirmSeat_effectN.
  - apply releaseSeat_effectN.
Qed.

(** X17: [/lock] followed by [/release] of the same user on an available
    seat gives back the seats and the pending timers exactly as they were:
    the lock leaves no trace but the handle that was used up. *)
Theorem lock_then_release_restores w i sid A :
  timersWf clock w ->
  seats w !! i = Some (mkSeat sid available None None None) ->
  A <> EmptyString ->
  let w1 := (lock clock i A w).2 in
  (release i A w1).1 = LockReleased i /\
  seats (release i A w1).2 = seats w /\
  timers (rt (release i A w1).2) = timers (rt w) /\
  nextTimer (rt (release i A w1).2) = S (nextTimer (rt w)).
Proof.
  intros (Hpend & _ & _) Hs HA w1. subst w1.
  rewrite (lock_available clock w i sid A Hs HA). cbn [snd].
  assert (Hfresh : timers (rt w) !! nextTimer (rt w) = None).
  { destruct (timers (rt w) !! nextTimer (rt w)) as [tmr|] eqn:E; [|reflexivity].
    destruct (Hpend _ _ E) as [Hlt _]. lia. }
  destruct w as [ss [tm nt tk]]. cbn [seats rt timers nextTimer ticks] in *.
  sm_unfold. rewrite lookup_insert_eq. sm.
  repeat split.
  - rewrite insert_insert_eq. apply insert_id. exact Hs.
  - rewrite delete_insert_eq. apply delete_id. exact Hfresh.
Qed.

(** ** The listing *)

Lemma omap_lookup_all {A B} (f : A -> option B) (g : A -> B) (l : list A) :
  (forall x, x ∈ l -> f x = Some (g x)) -> omap f l = g <$> l.
Proof.
  induction l as [|x l IH]; intros H; simpl; [reflexivity|].
  rewrite (H x) by left. f_equal. apply IH. intros y Hy. apply H. right. exact Hy.
Qed.

(** X12: [GET /seats] in a state reached from start-up answers with twenty
    entries in the order of the seat numbers; the entry of seat [i] shows
    its number and its current status, owner and expiry; the state is
    untouched. *)
Theorem listing_shows_every_seat es :
  let w := run clock initialWorld es in
  (getSeatsListing w).2 = w /\
  length (getSeatsListing w).1 = 20%nat /\
  (forall i s, seats w !! i = Some s ->
     (getSeatsListing w).1 !! Z.to_nat (i - 1) =
       Some (mkListing i (status s) (lockOwner s) (lockExpiresAt s))).
Proof.
  intros w. split; [reflexivity|].
  set (g := fun i => match seats w !! i with
                     | Some s => listingOf s
                     | None => mkListing i available None None
                     end).
  assert (Hall : (getSeatsListing w).1 = g <$> registryOrder).
  { unfold getSeatsListing. cbn [fst]. apply omap_lookup_all.
    intros i Hi. unfold registryOrder in Hi. apply elem_of_seqZ in Hi.
    pose proof (run_from_initial es i) as H. fold w in H. unfold g.
    destruct (seats w !! i) as [s|]; [reflexivity|lia]. }
  rewrite Hall. split.
  - rewrite length_fmap. reflexivity.
  - intros i s Hs.
    pose proof (run_from_initial es i) as H. fold w in H. rewrite Hs in H.
    destruct H as [Hin Hrtc]. apply rtc_seatStep_id in Hrtc. cbn in Hrtc.
    rewrite list_lookup_fmap. unfold registryOrder.
    rewrite (proj2 (lookup_seqZ 1 20 (Z.to_nat (i - 1)) i)) by lia.
    cbn [fmap option_fmap option_map]. unfold g. rewrite Hs. unfold listingOf.
    rewrite Hrtc. reflexivity.
Qed.

(** X14: the sweep, which the model runs in the order of [map_to_list],
    gives the state that the source's loop gives in the order the seats
    were put in the [Map]. *)
Theorem sweep_in_insertion_order es :
  let w := run clock initialWorld es in
  cleanup clock w =
  cleanupLoop (reading clock w 0) registryOrder
    (mkWorld (seats w)
       (mkRuntime (timers (rt w)) (nextTimer (rt w)) (S (ticks (rt w))))).
Proof.
  intros w. unfold cleanup, reading. rewrite Nat.add_0_r. cbn [seats].
  apply cleanupLoop_Permutation. apply NoDup_Permutation.
  - apply NoDup_fst_map_to_list.
  - apply NoDup_seqZ.
  - intros i. unfold registryOrder. rewrite elem_of_seqZ.
    pose proof (run_from_initial es i) as H. fold w in H. split.
    + intros Hi. apply list_elem_of_fmap in Hi as [[k s] [-> Hks]].
      apply elem_of_map_to_list in Hks. cbn [fst] in *. rewrite Hks in H. lia.
    + intros Hi. destruct (seats w !! i) as [s|] eqn:Hs; [|lia].
      apply list_elem_of_fmap. exists (i, s). split; [reflexivity|].
      apply elem_of_map_to_list. exact Hs.
Qed.

(** ** The client of test.js *)

Lemma lock_conflict_eq w i sid A B t h :
  seats w !! i = Some (mkSeat sid locked (Some A) (Some t) h) ->
  t <> 0 -> reading clock w 0 < t -> B <> A -> B <> EmptyString ->
  lock clock i B w =
  (LockConflict (Some A),
   mkWorld (seats w)
     (mkRuntime (timers (rt w)) (nextTimer (rt w)) (S (ticks (rt w))))).
Proof.
  intros Hs Ht Hlive HBA HB. open_world w. sm_unfold. rewrite Hs. sm.
  rewrite insert_id by done. reflexivity.
Qed.

Lemma confirm_books_eq w i sid A t h :
  seats w !! i = Some (mkSeat sid locked (Some A) (Some t) h) ->
  t <> 0 -> reading clock w 0 < t -> A <> EmptyString ->
  confirm clock i A w =
  (BookingConfirmed i A sid booked,
   mkWorld (<[i := mkSeat sid booked (Some A) None None]> (seats w))
     (mkRuntime (cancel h (timers (rt w))) (nextTimer (rt w)) (S (ticks (rt w))))).
Proof.
  intros Hs Ht Hlive HA. open_world w. sm_unfold. rewrite Hs. sm; reflexivity.
Qed.

Lemma confirm_not_owner_eq w i sid A B t h :
  seats w !! i = Some (mkSeat sid locked (Some A) (Some t) h) ->
  B <> A -> B <> EmptyString ->
  confirm clock i B w = (NotLockOwner (Some A), w).
Proof.
  intros Hs HBA HB. open_world w. sm_unfold. rewrite Hs. sm.
  all: rewrite insert_id by done; reflexivity.
Qed.

Lemma confirm_booked_eq w i sid o e h u :
  seats w !! i = Some (mkSeat sid booked o e h) ->
  u <> EmptyString ->
  confirm clock i u w = (AlreadyBooked, w).
Proof.
  intros Hs Hu. open_world w. sm_unfold. rewrite Hs. sm.
  rewrite insert_id by done. reflexivity.
Qed.

(** X13: the run of test.js.  On an available seat, with the two [/lock]
    requests arriving in either order and the confirmations sent before
    the lease of 60000 ms is over, the first [/lock] to arrive wins and
    the other is answered with a conflict naming the winner; the winner's
    [/confirm] books the seat, the loser's is refused (403 when it comes
    before the booking, 409 "already booked" when it comes after); the
    seat ends booked by the winner and no other seat has changed. *)
Theorem test_script_books_first_locker w targetSeat sid userA userB (aFirst : bool) :
  seats w !! targetSeat = Some (mkSeat sid available None None None) ->
  userA <> EmptyString -> userB <> EmptyString -> userA <> userB ->
  let e := reading clock w 0 + LOCK_DURATION_MS in
  e <> 0 ->
  reading clock w 2 < e ->
  reading clock w 3 < e ->
  let winner := if aFirst then userA else userB in
  let script := testScript aFirst targetSeat userA userB in
  answers clock w script =
    [Some (LockAcquired targetSeat winner (mkView sid locked (Some e)));
     Some (LockConflict (Some winner));
     Some (if aFirst then BookingConfirmed targetSeat userA sid booked
           else NotLockOwner (Some userB));
     Some (if aFirst then AlreadyBooked
           else BookingConfirmed targetSeat userB sid booked);
     None] /\
  seats (run clock w script) !! targetSeat =
    Some (mkSeat sid booked (Some winner) None None) /\
  (forall j, j <> targetSeat -> seats (run clock w script) !! j = seats w !! j).
Proof.
  intros Hs HA HB HAB e He H2 H3 winner script.
  assert (Hframe : forall j, j <> targetSeat ->
            seats (run clock w script) !! j = seats w !! j).
  { intros j Hj. subst script.
    destruct aFirst; cbn [testScript app run fold_left step getSeats snd];
      unfold lock, confirm; rewrite !handler_frame by done; reflexivity. }
  assert (Hrun :
    answers clock w script =
      [Some (LockAcquired targetSeat winner (mkView sid locked (Some e)));
       Some (LockConflict (Some winner));
       Some (if aFirst then BookingConfirmed targetSeat userA sid booked
             else NotLockOwner (Some userB));
       Some (if aFirst then AlreadyBooked
             else BookingConfirmed targetSeat userB sid booked);
       None] /\
    seats (run clock w script) !! targetSeat =
      Some (mkSeat sid booked (Some winner) None None)); [|tauto].
  clear Hframe. subst winner script e. unfold reading in *.
  destruct w as [ss [tm nt tk]]. cbn [seats rt ticks] in *.
  rewrite Nat.add_0_r in *.
  destruct aFirst;
    cbn [testScript app answers answer run fold_left step getSeats snd].
  - rewrite (lock_available clock (mkWorld ss (mkRuntime tm nt tk)) targetSeat sid userA Hs HA).
    unfold reading. cbn [fst snd seats rt ticks timers nextTimer].
    erewrite (lock_conflict_eq _ targetSeat sid userA userB) by side_goal.
    cbn [fst snd seats rt ticks timers nextTimer].
    erewrite (confirm_books_eq _ targetSeat sid userA) by side_goal.
    cbn [fst snd seats rt ticks timers nextTimer].
    erewrite (confirm_booked_eq _ targetSeat sid _ _ _ userB) by side_goal.
    cbn [fst snd seats]. rewrite Nat.add_0_r, lookup_insert_eq. split; reflexivity.
  - rewrite (lock_available clock (mkWorld ss (mkRuntime tm nt tk)) targetSeat sid userB Hs HB).
    unfold reading. cbn [fst snd seats rt ticks timers nextTimer].
    erewrite (lock_conflict_eq _ targetSeat sid userB userA) by side_goal.
    cbn [fst snd seats rt ticks timers nextTimer].
    erewrite (confirm_not_owner_eq _ targetSeat sid userB userA) by side_goal.
    cbn [fst snd seats rt ticks timers nextTimer].
    erewrite (confirm_books_eq _ targetSeat sid userB) by side_goal.
    cbn [fst snd seats]. rewrite Nat.add_0_r, lookup_insert_eq. split; reflexivity.
Qed.

End Coverage.

(** * The claims on concrete runs *)

(** Alice holds seat 5 until 61000; bob asks at 1002. *)
Lemma lock_conflict_reports_holder_witness :
  (lock tickClock 5 bob (aliceHolds tickClock)).1 = LockConflict (Some alice).
Proof.
  destruct (lock_conflict_reports_holder tickClock (aliceHolds tickClock)
              5 5 alice bob 61000 (Some 0%nat)) as [H _];
    [by_computing | by_computing | by_computing | by_computing | exact H].
Defined.

(** Alice holds seat 5 until 61000 and confirms at 61000. *)
Lemma confirm_expired_releases_witness :
  (confirm lateClock 5 alice (aliceHolds lateClock)).1 = LockExpired /\
  seats (confirm lateClock 5 alice (aliceHolds lateClock)).2 !! 5 =
    Some (mkSeat 5 available None None None).
Proof.
  destruct (confirm_expired_releases lateClock (aliceHolds lateClock)
              5 5 alice 61000 (Some 0%nat)) as (H1 & H2 & _);
    [by_computing | by_computing | by_computing | by_computing | ].
  split; [exact H1|]. rewrite H2. apply lookup_insert_eq.
Defined.

(** Alice holds seat 5 until 61000; bob asks at 61000. *)
Lemma lock_takes_over_expired_witness :
  (lock lateClock 5 bob (aliceHolds lateClock)).1 =
    LockAcquired 5 bob (mkView 5 locked (Some 121000)).
Proof.
  destruct (lock_takes_over_expired lateClock (aliceHolds lateClock)
              5 5 (Some alice) bob 61000 (Some 0%nat)) as [H _];
    [by_computing | by_computing | by_computing | by_computing | exact H].
Defined.

(** Alice holds seat 5 and asks again, once and three times in a row. *)
Lemma refresh_extends_lease_witness :
  (lock tickClock 5 alice (aliceHolds tickClock)).1 =
    LockRefreshed (mkView 5 locked (Some 61003)) /\
  Forall (fun r => success r = true)
    (lockTimes tickClock 3 5 alice (aliceHolds tickClock)).1.
Proof.
  destruct (refresh_extends_lease tickClock (aliceHolds tickClock)
              5 5 alice 61000 (Some 0%nat)) as [H1 Hn];
    [by_computing | by_computing | ].
  split.
  - destruct H1 as [H _]; [by_computing | by_computing | exact H].
  - destruct (Hn 3%nat) as (_ & H & _); [|exact H].
    cbn [liveAtEachCall]. repeat split; by_computing.
Defined.

(** Seat 5 is booked by alice; requests, its old timer and a sweep follow. *)
Lemma booked_is_terminal_witness :
  seats (run tickClock aliceBooked
           [EvRelease 5 alice; EvLock 5 bob; EvTimer 0; EvCleanup; EvConfirm 5 bob]) !! 5
  = Some (mkSeat 5 booked (Some alice) None None).
Proof.
  destruct (booked_is_terminal tickClock aliceBooked 5
              (mkSeat 5 booked (Some alice) None None)) as (_ & H & _);
    [by_computing | by_computing | apply H].
Defined.

(** A short run from start-up. *)
Lemma shape_invariant_witness :
  allShapeOk (run tickClock initialWorld [EvLock 5 alice; EvLock 5 bob; EvConfirm 5 alice]).
Proof.
  destruct (shape_invariant tickClock) as (_ & _ & H). apply H.
Defined.

(** The sweep at 61000 and at 1002 on a seat locked until 61000. *)
Lemma expire_is_guarded_witness :
  seats (cleanup lateClock (aliceHolds lateClock)) !! 5 =
    Some (mkSeat 5 available None None None) /\
  seats (cleanup tickClock (aliceHolds tickClock)) !! 5 =
    Some (mkSeat 5 locked (Some alice) (Some 61000) (Some 0%nat)).
Proof.
  split.
  - destruct (expire_is_guarded lateClock (aliceHolds lateClock)) as (_ & _ & H & _).
    destruct (H 5 (mkSeat 5 locked (Some alice) (Some 61000) (Some 0%nat)))
      as [_ Hf]; [by_computing|].
    apply Hf; [|by_computing].
    split; [reflexivity|]. exists 61000. split; [reflexivity|by_computing].
  - destruct (expire_is_guarded tickClock (aliceHolds tickClock)) as (_ & _ & H & _).
    destruct (H 5 (mkSeat 5 locked (Some alice) (Some 61000) (Some 0%nat)))
      as [Hn _]; [by_computing|].
    apply Hn. intros [_ [t [Ht Hle]]]. injection Ht as <-.
    vm_compute in Hle. apply Hle. reflexivity.
Defined.

(** Alice holds seat 5 and releases it; bob asks next. *)
Lemma release_then_reclaim_witness :
  (release 5 alice (aliceHolds tickClock)).1 = LockReleased 5 /\
  (lock tickClock 5 bob (release 5 alice (aliceHolds tickClock)).2).1 =
    LockAcquired 5 bob (mkView 5 locked (Some 61002)).
Proof.
  destruct (release_then_reclaim tickClock (aliceHolds tickClock) 5
              (mkSeat 5 locked (Some alice) (Some 61000) (Some 0%nat)) alice)
    as (_ & _ & H); [by_computing | by_computing | ].
  destruct H as (Hrel & _ & Hlock); [reflexivity | reflexivity | ].
  split.
  - rewrite Hrel. reflexivity.
  - destruct (Hlock bob) as [H _]; [by_computing | exact H].
Defined.

(** Alice's lock on seat 5 expired at 61000; bob confirms at 61000. *)
Lemma confirm_checks_owner_first_witness :
  confirm lateClock 5 bob (aliceHolds lateClock) =
    (NotLockOwner (Some alice), aliceHolds lateClock).
Proof.
  destruct (confirm_checks_owner_first lateClock (aliceHolds lateClock)
              5 5 alice bob 61000 (Some 0%nat)) as [H _];
    [by_computing | by_computing | by_computing | exact H].
Defined.

(** At the instant the reading equals the expiry (61000 both) all four
    tests take the lock for expired. *)
Lemma expiry_boundary_inclusive_witness :
  reading lateClock (aliceHolds lateClock) 0 = 61000 /\
  (lock lateClock 5 bob (aliceHolds lateClock)).1 =
    LockAcquired 5 bob (mkView 5 locked (Some 121000)) /\
  (confirm lateClock 5 alice (aliceHolds lateClock)).1 = LockExpired /\
  seats (timerFires lateClock 0 (aliceHolds lateClock)) !! 5 =
    Some (mkSeat 5 available None None None) /\
  seats (cleanup lateClock (aliceHolds lateClock)) !! 5 =
    Some (mkSeat 5 available None None None).
Proof.
  split; [by_computing|].
  destruct (expiry_boundary_inclusive lateClock (aliceHolds lateClock)
              5 5 alice 61000 (Some 0%nat) bob 0%nat 60005) as [H _];
    [by_computing | by_computing | by_computing | by_computing | by_computing | ].
  apply H. by_computing.
Defined.

(** * The rest of the code on concrete runs *)


(** Bob's [/lock] on alice's seat is refused and changes nothing. *)
Lemma refused_requests_change_nothing_witness :
  seats (lock tickClock 5 bob (aliceHolds tickClock)).2 = seats (aliceHolds tickClock).
Proof.
  destruct (refused_requests_change_nothing tickClock (aliceHolds tickClock) 5 bob
              (lock tickClock 5 bob (aliceHolds tickClock)).1
              (lock tickClock 5 bob (aliceHolds tickClock)).2) as [H _];
    [left; apply surjective_pairing | by_computing | by_computing | exact H].
Defined.

(** Alice holds seat 5 until 61000; at 1002 bob tries to release it. *)
Lemma live_lock_only_owner_witness :
  seats (step tickClock (aliceHolds tickClock) (EvRelease 5 bob)) !! 5 =
    Some (mkSeat 5 locked (Some alice) (Some 61000) (Some 0%nat)).
Proof.
  apply (live_lock_only_owner tickClock (aliceHolds tickClock) 5 5 alice 61000
           (Some 0%nat) (EvRelease 5 bob)); by_computing.
Defined.

(** Alice holds seat 5 until 61000 and confirms at 1002. *)
Lemma confirm_books_witness :
  (confirm tickClock 5 alice (aliceHolds tickClock)).1 = BookingConfirmed 5 alice 5 booked /\
  timers (rt (confirm tickClock 5 alice (aliceHolds tickClock)).2) = ∅.
Proof.
  destruct (confirm_books tickClock (aliceHolds tickClock) 5 5 alice 61000 (Some 0%nat))
    as (H1 & _ & H3 & _); [by_computing | by_computing | by_computing | ].
  split; [exact H1|]. rewrite H3. by_computing.
Defined.

(** Bob asks for seat 7 right after start-up. *)
Lemma lock_available_seat_witness :
  (lock tickClock 7 bob initialWorld).1 =
    LockAcquired 7 bob (mkView 7 locked (Some 61000)).
Proof.
  destruct (lock_available_seat tickClock initialWorld 7
              (mkSeat 7 available None None None) bob) as [H _];
    [by_computing | by_computing | by_computing | exact H].
Defined.

(** Seat 5 goes from locked by alice to booked: the event is alice's
    [/confirm]. *)
Lemma booked_only_by_confirm_witness :
  exists u, EvConfirm 5 alice = EvConfirm 5 u /\ u <> EmptyString.
Proof.
  destruct (booked_only_by_confirm tickClock (aliceHolds tickClock) (EvConfirm 5 alice) 5
              (mkSeat 5 locked (Some alice) (Some 61000) (Some 0%nat))
              (mkSeat 5 booked (Some alice) None None))
    as (u & H1 & H2 & _);
    [by_computing | by_computing | by_computing | by_computing | ].
  exists u. auto.
Defined.

(** Seat 5 goes from available to locked by alice: the event is alice's
    [/lock]. *)
Lemma locked_only_by_own_lock_witness :
  (available = locked /\ None = Some alice) \/
  (EvLock 5 alice = EvLock 5 alice /\ alice <> EmptyString).
Proof.
  apply (locked_only_by_own_lock tickClock initialWorld (EvLock 5 alice) 5
           (mkSeat 5 available None None None)
           (mkSeat 5 locked (Some alice) (Some 61000) (Some 0%nat)) alice);
    by_computing.
Defined.

(** After alice's [/lock] on seat 5 the one pending timer is the one seat
    5 holds. *)
Lemma pending_timer_means_locked_witness :
  exists s, seats (run tickClock initialWorld [EvLock 5 alice]) !! 5 = Some s /\
            status s = locked /\ timeoutId s = Some 0%nat.
Proof.
  destruct (pending_timer_means_locked tickClock [EvLock 5 alice] 0%nat (mkTimer 5 60004))
    as [H _]; [by_computing | exact H].
Defined.

(** The timer set by alice's [/lock] on seat 5. *)
Lemma timer_delay_bounds_witness : 5 <= t_delay (mkTimer 5 60004).
Proof.
  destruct (timer_delay_bounds tickClock [EvLock 5 alice] 0%nat (mkTimer 5 60004))
    as [H _]; [by_computing | exact H].
Defined.

(** test.js itself: seat 5, alice and bob, the locks arriving in either
    order. *)
Lemma test_script_books_first_locker_witness :
  seats (run tickClock initialWorld (testScript true 5 alice bob)) !! 5 =
    Some (mkSeat 5 booked (Some alice) None None) /\
  seats (run tickClock initialWorld (testScript false 5 alice bob)) !! 5 =
    Some (mkSeat 5 booked (Some bob) None None).
Proof.
  split.
  - destruct (test_script_books_first_locker tickClock initialWorld 5 5 alice bob true)
      as (_ & H & _); [by_computing ..| exact H].
  - destruct (test_script_books_first_locker tickClock initialWorld 5 5 alice bob false)
      as (_ & H & _); [by_computing ..| exact H].
Defined.

(** The sweep at 61000 on a seat locked until 61000. *)
Lemma sweep_leaves_no_lapsed_lock_witness :
  ~ lapsed (reading lateClock (aliceHolds lateClock) 0) (mkSeat 5 available None None None).
Proof.
  apply (sweep_leaves_no_lapsed_lock lateClock (aliceHolds lateClock) 5); by_computing.
Defined.

(** Alice holds seat 5 with timer 0; bob locks seat 6. *)
Lemma requests_keep_other_timers_witness :
  timers (rt (lock tickClock 6 bob (aliceHolds tickClock)).2) !! 0%nat =
    Some (mkTimer 5 60004).
Proof.
  destruct (requests_keep_other_timers tickClock (aliceHolds tickClock) 6 bob 0%nat
              (mkTimer 5 60004)) as [H _];
    [exact (run_wf tickClock [EvLock 5 alice] initialWorld (initial_wf tickClock))
    | by_computing | by_computing | exact H].
Defined.

(** Alice locks seat 5 right after start-up and releases it. *)
Lemma lock_then_release_restores_witness :
  seats (release 5 alice (lock tickClock 5 alice initialWorld).2).2 = seats initialWorld /\
  timers (rt (release 5 alice (lock tickClock 5 alice initialWorld).2).2) = ∅.
Proof.
  destruct (lock_then_release_restores tickClock initialWorld 5 5 alice)
    as (_ & H1 & H2 & _);
    [exact (initial_wf tickClock) | by_computing | by_computing | ].
  split; [exact H1 | exact H2].
Defined.
